(** * pagespeed/kernel/base/file_system.h

    A shallow embedding of the [net_instaweb::FileSystem] interface: the
    tri-state [BoolOrError] result, the abstract class with its pure
    virtual primitives, and the methods whose bodies the header gives
    inline ([OpenOutputFile], [OpenOutputFileForAppend], [OpenTempFile],
    [RenameFile], the default [TryLockWithTimeout] and [BumpLockTimeout]).

    Methods that the header only declares are modelled from the
    specification; each such definition says so in its doc comment. *)

From Stdlib Require Import ZArith Lia Ascii String.
From stdpp Require Import gmap strings list fin_maps.

Open Scope Z_scope.

(** ** BoolOrError (file_system.h, lines 36-60) *)

Module BoolOrError.

(** [enum Choice { kIsFalse, kIsTrue, kIsError }] *)
Inductive Choice := kIsFalse | kIsTrue | kIsError.

Definition Choice_eqb (a b : Choice) : bool :=
  match a, b with
  | kIsFalse, kIsFalse | kIsTrue, kIsTrue | kIsError, kIsError => true
  | _, _ => false
  end.

(** The class has the single private member [choice_]. *)
Record t := mk { choice_ : Choice }.

(** [BoolOrError() : choice_(kIsError) {}] *)
Definition default : t := mk kIsError.

(** [explicit BoolOrError(bool t_or_f) : choice_(t_or_f ? kIsTrue : kIsFalse)] *)
Definition of_bool (t_or_f : bool) : t :=
  mk (if t_or_f then kIsTrue else kIsFalse).

(** [BoolOrError(const BoolOrError& src) : choice_(src.choice_) {}] *)
Definition copy (src : t) : t := mk (choice_ src).

Definition is_false (b : t) : bool := Choice_eqb (choice_ b) kIsFalse.
Definition is_true (b : t) : bool := Choice_eqb (choice_ b) kIsTrue.
Definition is_error (b : t) : bool := Choice_eqb (choice_ b) kIsError.

(** [void set_error() { choice_ = kIsError; }] *)
Definition set_error (b : t) : t := mk kIsError.

(** [void set(bool t_or_f) { choice_ = t_or_f ? kIsTrue : kIsFalse; }] *)
Definition set (t_or_f : bool) (b : t) : t :=
  mk (if t_or_f then kIsTrue else kIsFalse).

End BoolOrError.

Abbreviation BoolOrError := BoolOrError.t.

(** ** Plain data of the interface *)

(** [GoogleString] and [StringPiece] used as file content are byte strings. *)
Abbreviation bytes := (list Byte.byte).

(** [static const int64 kUnlimitedSize = -1;] *)
Definition kUnlimitedSize : Z := -1.

(** The two's complement image of an [int64] value. *)
Definition int64_bits (z : Z) : Z := z mod 2 ^ 64.

(** The values an [int64] holds, and the value it holds after an
    arithmetic result [z] is stored in it (two's complement wrap-around). *)
Definition in_int64 (z : Z) : Prop := - 2 ^ 63 ≤ z < 2 ^ 63.

Definition int64_wrap (z : Z) : Z := (z + 2 ^ 63) mod 2 ^ 64 - 2 ^ 63.

(** [class Timer]: only its current reading matters to lock timeouts. *)
Record Timer := { NowMs : Z }.

(** [FileSystem::OutputFile] and [FileSystem::InputFile] handles.  An
    input handle carries the blocks that successive [Read] calls deliver
    (a [Read] may return fewer bytes than asked for). *)
Record OutputFile := { out_filename : string }.
Record InputFile := { in_filename : string; in_blocks : list bytes }.

(** [struct FileInfo] and [struct DirInfo].  The fields of [FileInfo]
    carry the prefix [fi_], as [DirInfo] has a [size_bytes] too.  The
    [int64] fields are integers that every addition into them keeps in
    the range of an [int64] (see [int64_wrap]). *)
Record FileInfo := { fi_size_bytes : Z; fi_atime_sec : Z; fi_name : string }.

Record DirInfo := {
  files : list FileInfo;
  empty_dirs : list string;
  size_bytes : Z;
  inode_count : Z
}.

(** [DirInfo() : size_bytes(0), inode_count(0) {}] *)
Definition DirInfo_init : DirInfo :=
  {| files := []; empty_dirs := []; size_bytes := 0; inode_count := 0 |}.

(** ** Paths

    File names are plain strings with ['/'] as the separator. *)

Definition is_slash (c : ascii) : bool := Ascii.eqb c "/".

(** The prefixes of [s] that end right before a ['/'] of [s], shortest
    first. *)
Fixpoint cuts (s : string) : list string :=
  match s with
  | EmptyString => []
  | String c r =>
      (if is_slash c then [EmptyString] else []) ++ map (String c) (cuts r)
  end.

(** The ancestor directories of a path: its cuts, but for the empty one
    that an absolute path starts with. *)
Definition ancestors (s : string) : list string :=
  match s with
  | EmptyString => []
  | String c r => map (String c) (cuts r)
  end.

(** The part of [s] before its last ['/'], if it has one. *)
Fixpoint dirname (s : string) : option string :=
  match s with
  | EmptyString => None
  | String c r =>
      match dirname r with
      | Some d => Some (String c d)
      | None => if is_slash c then Some EmptyString else None
      end
  end.

Fixpoint ends_in_slash (s : string) : bool :=
  match s with
  | EmptyString => false
  | String c EmptyString => is_slash c
  | String _ r => ends_in_slash r
  end.

Definition EnsureEndsInSlash (s : string) : string :=
  if ends_in_slash s then s else (s +:+ "/")%string.

Fixpoint has_slash (s : string) : bool :=
  match s with
  | EmptyString => false
  | String c r => is_slash c || has_slash r
  end.

(** ** The abstract class

    A method of the class runs against everything it can change (the
    storage behind the backend, the sink of the message handler); [S] is
    that world and a method is a state transformer over it. *)

Definition M (S A : Type) : Type := S → A * S.

Definition ret {S A} (a : A) : M S A := λ st, (a, st).

Definition bind {S A B} (m : M S A) (k : A → M S B) : M S B :=
  λ st, let '(a, st') := m st in k a st'.

Notation "'let*' x := m 'in' k" := (bind m (λ x, k))
  (at level 10, x name, m at level 100, k at level 200,
   format "'[v' 'let*'  x  :=  m  'in' '/' k ']'").

(** [FileSystem::File]: the base of both kinds of handle. *)
Inductive File := FileIn (f : InputFile) | FileOut (f : OutputFile).

Definition filename (f : File) : string :=
  match f with
  | FileIn i => in_filename i
  | FileOut o => out_filename o
  end.

(** The pure virtual methods of [FileSystem], together with the virtual
    methods of the handles a backend hands out ([InputFile::ReadFile],
    [OutputFile::Write], [File::Close]).  An out-parameter becomes part of
    the result: [InputFile::ReadFile] yields the buffer when it returns
    true and nothing when it returns false. *)
Record FileSystem {S MessageHandler : Type} := {
  OpenInputFile : string → MessageHandler → M S (option InputFile);
  InputFile_ReadFile : InputFile → Z → MessageHandler → M S (option bytes);
  OutputFile_Write : OutputFile → bytes → MessageHandler → M S bool;
  File_Close : File → MessageHandler → M S bool;
  RemoveFile : string → MessageHandler → M S bool;
  MakeDir : string → MessageHandler → M S bool;
  Exists : string → MessageHandler → M S BoolOrError;
  IsDir : string → MessageHandler → M S BoolOrError;
  TryLock : string → MessageHandler → M S BoolOrError;
  Unlock : string → MessageHandler → M S bool;
  OpenOutputFileHelper :
    string → bool → MessageHandler → M S (option OutputFile);
  OpenTempFileHelper : string → MessageHandler → M S (option OutputFile);
  RenameFileHelper : string → string → MessageHandler → M S bool
}.

Arguments FileSystem : clear implicits.

(** [virtual bool BumpLockTimeout(lock_name, handler) { return true; }]
    ("Default implementation does nothing, since the default
    implementation of TryLockWithTimeout doesn't do anything either.")
    The object the method is called on is [fs]. *)
Definition BumpLockTimeout {S MessageHandler : Type}
    (fs : FileSystem S MessageHandler) (lock_name : string)
    (handler : MessageHandler) : M S bool :=
  ret true.

Section FileSystemClass.

Context {S MessageHandler : Type}.
Variable fs : FileSystem S MessageHandler.

(** *** Making the parent directories (declared only) *)

(** Modelled from the spec: the loop of [RecursivelyMakeDir], whose body
    is not in the header ("like POSIX mkdir -p, makes all directories up
    to this one recursively"): each directory of the chain that does not
    exist is made, and the call fails as soon as one cannot be made or
    its path is taken by something that is no directory. *)
Fixpoint make_dirs (ds : list string) (handler : MessageHandler)
    : M S bool :=
  match ds with
  | [] => ret true
  | d :: rest =>
      let* e := Exists fs d handler in
      if BoolOrError.is_false e then
        let* made := MakeDir fs d handler in
        if made then make_dirs rest handler else ret false
      else
        let* dir := IsDir fs d handler in
        if BoolOrError.is_true dir then make_dirs rest handler
        else ret false
  end.

(** Modelled from the spec: [RecursivelyMakeDir], which the header only
    declares: the chain is the ancestors of the path and the path
    itself. *)
Definition RecursivelyMakeDir (directory_path : string)
    (handler : MessageHandler) : M S bool :=
  make_dirs (ancestors (EnsureEndsInSlash directory_path)) handler.

(** Modelled from the spec: the private [SetupFileDir], which the header
    only declares ("RecursiveMakeDir the directory needed for filename"):
    the parent directory of [filename] is made recursively and the
    outcome is dropped, as the method returns void. *)
Definition SetupFileDir (filename : string) (handler : MessageHandler)
    : M S unit :=
  match dirname filename with
  | Some directory_name =>
      let* _ := RecursivelyMakeDir directory_name handler in ret tt
  | None => ret tt
  end.

(** *** Methods whose bodies the header gives *)

(** [virtual BoolOrError TryLockWithTimeout(lock_name, timeout_millis,
    timer, handler) { return TryLock(lock_name, handler); }] *)
Definition TryLockWithTimeout (lock_name : string) (timeout_millis : Z)
    (timer : Timer) (handler : MessageHandler) : M S BoolOrError :=
  TryLock fs lock_name handler.

(** [OutputFile* OpenOutputFile(filename, handler) {
      SetupFileDir(filename, handler);
      return OpenOutputFileHelper(filename, false, handler); }] *)
Definition OpenOutputFile (filename : string) (handler : MessageHandler)
    : M S (option OutputFile) :=
  let* _ := SetupFileDir filename handler in
  OpenOutputFileHelper fs filename false handler.

(** [OutputFile* OpenOutputFileForAppend(filename, handler) {
      SetupFileDir(filename, handler);
      return OpenOutputFileHelper(filename, true, handler); }] *)
Definition OpenOutputFileForAppend (filename : string)
    (handler : MessageHandler) : M S (option OutputFile) :=
  let* _ := SetupFileDir filename handler in
  OpenOutputFileHelper fs filename true handler.

(** [OutputFile* OpenTempFile(prefix_name, handler) {
      SetupFileDir(prefix_name, handler);
      return OpenTempFileHelper(prefix_name, handler); }] *)
Definition OpenTempFile (prefix_name : string) (handler : MessageHandler)
    : M S (option OutputFile) :=
  let* _ := SetupFileDir prefix_name handler in
  OpenTempFileHelper fs prefix_name handler.

(** [bool RenameFile(old_filename, new_filename, handler) {
      SetupFileDir(new_filename, handler);
      return RenameFileHelper(old_filename, new_filename, handler); }] *)
Definition RenameFile (old_filename new_filename : string)
    (handler : MessageHandler) : M S bool :=
  let* _ := SetupFileDir new_filename handler in
  RenameFileHelper fs old_filename new_filename handler.

(** *** Other methods the header only declares *)

(** Modelled from the spec: the body of [Close] ("closes the File";
    closing goes through the file system, never through the handle). *)
Definition Close (file : File) (handler : MessageHandler) : M S bool :=
  File_Close fs file handler.

(** Modelled from the spec: the body of [ReadFile] on an input handle
    with a size limit and a string buffer: a NULL input file reports failure,
    otherwise the handle reads itself under the limit and is closed. *)
Definition ReadFile_input (input_file : option InputFile)
    (max_file_size : Z) (handler : MessageHandler) : M S (option bytes) :=
  match input_file with
  | None => ret None
  | Some f =>
      let* buffer := InputFile_ReadFile fs f max_file_size handler in
      let* closed := Close (FileIn f) handler in
      ret (if closed then buffer else None)
  end.

(** Modelled from the spec: the body of [ReadFile] on a file name with
    a size limit and a string buffer: open, then read as above. *)
Definition ReadFile (filename : string) (max_file_size : Z)
    (handler : MessageHandler) : M S (option bytes) :=
  let* input_file := OpenInputFile fs filename handler in
  ReadFile_input input_file max_file_size handler.

(** Modelled from the spec: the body of [WriteFile] (not atomic: open
    with parent directories made, write, close). *)
Definition WriteFile (filename : string) (buffer : bytes)
    (handler : MessageHandler) : M S bool :=
  let* output := OpenOutputFile filename handler in
  match output with
  | None => ret false
  | Some f =>
      let* written := OutputFile_Write fs f buffer handler in
      let* closed := Close (FileOut f) handler in
      ret (written && closed)
  end.

(** Modelled from the spec: the body of [WriteTempFile] ("writes given
    data to a temp file in one shot, storing the filename in filename on
    success; returns false and clears filename on failure"). *)
Definition WriteTempFile (prefix_name : string) (buffer : bytes)
    (handler : MessageHandler) : M S (bool * string) :=
  let* output := OpenTempFile prefix_name handler in
  match output with
  | None => ret (false, EmptyString)
  | Some f =>
      let* written := OutputFile_Write fs f buffer handler in
      let* closed := Close (FileOut f) handler in
      if written && closed then ret (true, out_filename f)
      else
        let* _ := RemoveFile fs (out_filename f) handler in
        ret (false, EmptyString)
  end.

(** Modelled from the spec: the body of [WriteFileAtomic] ("write a
    temp file first and then copy to filename", "temp file name is based
    on filename": the full content goes to a temporary path derived from
    the target, which the backend's rename then moves onto the
    target). *)
Definition WriteFileAtomic (filename : string) (buffer : bytes)
    (handler : MessageHandler) : M S bool :=
  let* temp := WriteTempFile (filename +:+ ".temp") buffer handler in
  if temp.1 then RenameFile temp.2 filename handler else ret false.

End FileSystemClass.

(** ** A reference in-memory backend

    Modelled from the spec: the concrete backend is not part of the
    header.  This one follows the backend contract the specification and
    the header's comments give: a hierarchical store in which [MakeDir]
    is POSIX mkdir, [Exists] and [IsDir] are test -e and test -d, an open
    for output needs the parent directory, a temporary file gets a unique
    name under its prefix, [Write] is not atomic, rename is one step, and
    a lock is a name with the time it was last claimed or bumped. *)

Module Mem.

(** Modelled from the spec: what the store holds under a path, a regular
    file with its content or a directory. *)
Inductive entry := EFile (content : bytes) | EDir.

(** Modelled from the spec: the state of the backend.  [history] keeps every content the store went through, latest first:
    what a reader can find when it opens a file between two steps of a
    writer. *)
Record state := {
  entries : gmap string entry;
  history : list (gmap string entry);
  locks : gmap string Z;
  clock : Z;
  temp_counter : nat
}.

Definition empty : state :=
  {| entries := ∅; history := []; locks := ∅; clock := 0; temp_counter := 0 |}.

(** Every change of the store goes through [commit]. *)
Definition commit (e : gmap string entry) (st : state) : state :=
  {| entries := e; history := e :: history st; locks := locks st;
     clock := clock st; temp_counter := temp_counter st |}.

Definition set_locks (l : gmap string Z) (st : state) : state :=
  {| entries := entries st; history := history st; locks := l;
     clock := clock st; temp_counter := temp_counter st |}.

(** Time passes by [set_clock]. *)
Definition set_clock (now : Z) (st : state) : state :=
  {| entries := entries st; history := history st; locks := locks st;
     clock := now; temp_counter := temp_counter st |}.

Definition next_temp (st : state) : state :=
  {| entries := entries st; history := history st; locks := locks st;
     clock := clock st; temp_counter := Datatypes.S (temp_counter st) |}.

Definition is_dir (e : gmap string entry) (p : string) : bool :=
  match e !! p with Some EDir => true | _ => false end.

Definition exists_ (e : gmap string entry) (p : string) : bool :=
  match e !! p with Some _ => true | None => false end.

(** The content found under [p]: that of a regular file. *)
Definition content_of (e : gmap string entry) (p : string) : option bytes :=
  match e !! p with Some (EFile c) => Some c | _ => None end.

(** The directory a path sits in is its last ancestor; a path without
    one sits at the top, which is always there. *)
Definition parent_ok (e : gmap string entry) (p : string) : bool :=
  match last (ancestors p) with
  | Some a => is_dir e a
  | None => true
  end.

(** The unique part of a temporary name, drawn from a counter. *)
Fixpoint temp_suffix (n : nat) : string :=
  match n with
  | O => "_"
  | Datatypes.S k => String "0" (temp_suffix k)
  end.

(** The blocks a reader gets: here one byte per [Read]. *)
Definition blocks_of (c : bytes) : list bytes := map (λ b, [b]) c.

(** Modelled from the spec: the loop of [InputFile::ReadFile], whose body
    no file under the header gives ("reads the entire remaining content,
    fails if the content would exceed maxSize"; "calling this with
    max_file_size=kUnlimitedSize doesn't limit the read size"): read block
    after block and, under a limit, give up as soon as more than
    [max_file_size] bytes have come in. *)
Fixpoint read_blocks (blocks : list bytes) (acc : bytes) (max_file_size : Z)
    : option bytes :=
  match blocks with
  | [] => Some acc
  | b :: rest =>
      let acc' := acc ++ b in
      if negb (max_file_size =? kUnlimitedSize)
         && (max_file_size <? Z.of_nat (length acc'))
      then None
      else read_blocks rest acc' max_file_size
  end.

(** Modelled from the spec: [OutputFile::Write] ("Write is not atomic"):
    the bytes reach the file one by one, and each step is a content of
    the store of its own. *)
Fixpoint write_bytes (name : string) (buf : bytes) (st : state)
    : bool * state :=
  match buf with
  | [] => (true, st)
  | b :: rest =>
      match entries st !! name with
      | Some (EFile c) =>
          write_bytes name rest
            (commit (<[name := EFile (c ++ [b])]> (entries st)) st)
      | _ => (false, st)
      end
  end.

Section Backend.

Context {MessageHandler : Type}.

(** Modelled from the spec: [OpenInputFile]; only a regular file opens,
    and the handle delivers the content it has at that moment. *)
Definition OpenInputFile (filename : string) (handler : MessageHandler)
    : M state (option InputFile) :=
  λ st, match entries st !! filename with
        | Some (EFile c) =>
            (Some {| in_filename := filename; in_blocks := blocks_of c |}, st)
        | _ => (None, st)
        end.

(** Modelled from the spec: [InputFile::ReadFile], the loop above from
    an empty buffer. *)
Definition InputFile_ReadFile (f : InputFile) (max_file_size : Z)
    (handler : MessageHandler) : M state (option bytes) :=
  ret (read_blocks (in_blocks f) [] max_file_size).

(** Modelled from the spec: [OutputFile::Write] on the file the handle
    names. *)
Definition OutputFile_Write (f : OutputFile) (buf : bytes)
    (handler : MessageHandler) : M state bool :=
  write_bytes (out_filename f) buf.

(** Modelled from the spec: [File::Close]; nothing is buffered, so there
    is nothing to do. *)
Definition File_Close (f : File) (handler : MessageHandler) : M state bool :=
  ret true.

(** Modelled from the spec: [RemoveFile] ("like POSIX rm"). *)
Definition RemoveFile (filename : string) (handler : MessageHandler)
    : M state bool :=
  λ st, match entries st !! filename with
        | Some (EFile _) => (true, commit (delete filename (entries st)) st)
        | _ => (false, st)
        end.

(** Modelled from the spec: [MakeDir] ("like POSIX mkdir, makes a
    directory only if parent directory exists; fails if directory_name
    already exists or parent directory doesn't exist"). *)
Definition MakeDir (directory_path : string) (handler : MessageHandler)
    : M state bool :=
  λ st, if exists_ (entries st) directory_path then (false, st)
        else if parent_ok (entries st) directory_path
        then (true, commit (<[directory_path := EDir]> (entries st)) st)
        else (false, st).

(** Modelled from the spec: [Exists] ("like POSIX test -e"). *)
Definition Exists (path : string) (handler : MessageHandler)
    : M state BoolOrError :=
  λ st, (BoolOrError.of_bool (exists_ (entries st) path), st).

(** Modelled from the spec: [IsDir] ("like POSIX test -d"). *)
Definition IsDir (path : string) (handler : MessageHandler)
    : M state BoolOrError :=
  λ st, (BoolOrError.of_bool (is_dir (entries st) path), st).

(** Modelled from the spec: [OpenOutputFileHelper].  The helper "may
    assume the directory already exists": without it, or on a directory,
    the open fails.  Opening for append keeps what an existing file
    holds, a plain open starts from nothing. *)
Definition OpenOutputFileHelper (filename : string) (append : bool)
    (handler : MessageHandler) : M state (option OutputFile) :=
  λ st, if parent_ok (entries st) filename then
          match entries st !! filename with
          | Some EDir => (None, st)
          | Some (EFile c) =>
              (Some {| out_filename := filename |},
               if append then st
               else commit (<[filename := EFile []]> (entries st)) st)
          | None =>
              (Some {| out_filename := filename |},
               commit (<[filename := EFile []]> (entries st)) st)
          end
        else (None, st).

(** Modelled from the spec: [OpenTempFileHelper] ("a uniquely named file
    under that prefix"): the file is created under the prefix followed by
    a part drawn from a counter, if nothing has that name yet. *)
Definition OpenTempFileHelper (prefix_name : string)
    (handler : MessageHandler) : M state (option OutputFile) :=
  λ st, let name := (prefix_name +:+ temp_suffix (temp_counter st))%string in
        if parent_ok (entries st) name && negb (exists_ (entries st) name)
        then (Some {| out_filename := name |},
              next_temp (commit (<[name := EFile []]> (entries st)) st))
        else (None, next_temp st).

(** Modelled from the spec: [RenameFileHelper] ("like POSIX mv"): a
    regular file moves onto the new name in one step. *)
Definition RenameFileHelper (old_filename new_filename : string)
    (handler : MessageHandler) : M state bool :=
  λ st, match entries st !! old_filename with
        | Some (EFile c) =>
            if parent_ok (entries st) new_filename
               && negb (is_dir (entries st) new_filename)
            then (true,
                  commit (<[new_filename := EFile c]>
                            (delete old_filename (entries st))) st)
            else (false, st)
        | _ => (false, st)
        end.

(** Modelled from the spec: [TryLock] ("returns true if claimed, false
    if someone else currently holds it").  The claim is stamped with the
    backend's clock. *)
Definition TryLock (lock_name : string) (handler : MessageHandler)
    : M state BoolOrError :=
  λ st, match locks st !! lock_name with
        | Some _ => (BoolOrError.of_bool false, st)
        | None =>
            (BoolOrError.of_bool true,
             set_locks (<[lock_name := clock st]> (locks st)) st)
        end.

(** Modelled from the spec: [Unlock] ("releases a held lock"). *)
Definition Unlock (lock_name : string) (handler : MessageHandler)
    : M state bool :=
  λ st, (true, set_locks (delete lock_name (locks st)) st).

(** The backend as an instance of the class. *)
Definition fs : FileSystem state MessageHandler :=
  Build_FileSystem state MessageHandler
    OpenInputFile InputFile_ReadFile OutputFile_Write File_Close RemoveFile
    MakeDir Exists IsDir TryLock Unlock
    OpenOutputFileHelper OpenTempFileHelper RenameFileHelper.

(** Modelled from the spec: the override of [TryLockWithTimeout] in a
    backend that breaks stale locks ("if the lock is currently held and
    was last claimed or refreshed more than timeoutMillis ago, the caller
    is permitted to break it and take it over"). *)
Definition TryLockWithTimeout (lock_name : string) (timeout_millis : Z)
    (timer : Timer) (handler : MessageHandler) : M state BoolOrError :=
  λ st, match locks st !! lock_name with
        | Some last_claimed =>
            if timeout_millis <? NowMs timer - last_claimed
            then (BoolOrError.of_bool true,
                  set_locks (<[lock_name := NowMs timer]> (locks st)) st)
            else (BoolOrError.of_bool false, st)
        | None =>
            (BoolOrError.of_bool true,
             set_locks (<[lock_name := NowMs timer]> (locks st)) st)
        end.

(** Modelled from the spec: the override of [BumpLockTimeout] that goes
    with it ("refreshes the last-claimed timestamp of a lock the caller
    currently believes it holds"). *)
Definition BumpLockTimeout (lock_name : string) (handler : MessageHandler)
    : M state bool :=
  λ st, match locks st !! lock_name with
        | Some _ => (true, set_locks (<[lock_name := clock st]> (locks st)) st)
        | None => (false, st)
        end.

End Backend.

End Mem.

(** ** Directory aggregation *)

(** Modelled from the spec: what the walk of [GetDirInfo] sees, a
    directory tree ("we assume no circular links"): a regular file with
    the size and access time the backend reports for it ([int64]
    values), or a directory with its named entries. *)
#[warnings="-register-all"]
Inductive node :=
| Regular (size atime : Z)
| Directory (listing : list (string * node)).

(** The full path of an entry of the directory at [path]. *)
Definition join (path name : string) : string :=
  (path +:+ String "/" name)%string.

(** The additions into the [int64] counters of the record wrap around
    as an [int64] does. *)
Definition add_file (info : FileInfo) (di : DirInfo) : DirInfo :=
  {| files := files di ++ [info]; empty_dirs := empty_dirs di;
     size_bytes := int64_wrap (size_bytes di + fi_size_bytes info);
     inode_count := inode_count di |}.

Definition add_empty_dir (path : string) (di : DirInfo) : DirInfo :=
  {| files := files di; empty_dirs := empty_dirs di ++ [path];
     size_bytes := size_bytes di; inode_count := inode_count di |}.

Definition add_inodes (n : nat) (di : DirInfo) : DirInfo :=
  {| files := files di; empty_dirs := empty_dirs di;
     size_bytes := size_bytes di;
     inode_count := int64_wrap (inode_count di + Z.of_nat n) |}.

(** Modelled from the spec: the walk of [GetDirInfo], whose body is not
    in the header, at the thing found under [path]: "every regular file's
    metadata (size, access time, full path) is appended; every directory
    found to contain zero entries has its full path appended to the
    empty-directory list; total size and total entry count are accumulated
    across the whole subtree". *)
Fixpoint visit (path : string) (n : node) (di : DirInfo) : DirInfo :=
  match n with
  | Regular size atime =>
      add_file {| fi_size_bytes := size; fi_atime_sec := atime;
                  fi_name := path |} di
  | Directory listing =>
      let counted := add_inodes (length listing) di in
      match listing with
      | [] => add_empty_dir path counted
      | _ =>
          fold_left (λ acc e, visit (join path e.1) e.2 acc) listing counted
      end
  end.

(** Modelled from the spec: [GetDirInfo(path, dirinfo, handler)] on the
    directory at [path], into a record as its constructor leaves it. *)
Definition GetDirInfo (path : string) (listing : list (string * node))
    : DirInfo :=
  visit path (Directory listing) DirInfo_init.

(** [at_path p n q m]: in the tree [n] that sits at path [p], the node
    [m] sits at the full path [q]. *)
Inductive at_path : string → node → string → node → Prop :=
| at_here p n : at_path p n p n
| at_below p listing name child q m :
    In (name, child) listing →
    at_path (join p name) child q m →
    at_path p (Directory listing) q m.

(** The number of entries below a node. *)
Fixpoint entry_count (n : node) : nat :=
  match n with
  | Regular _ _ => 0
  | Directory listing =>
      fold_right (λ e k, (Datatypes.S (entry_count e.2) + k)%nat) 0%nat listing
  end.

(** The sum of the sizes of some files. *)
Definition sum_sizes (l : list FileInfo) : Z :=
  fold_right (λ info k, fi_size_bytes info + k) 0 l.

(** No name comes twice. *)
Fixpoint distinct (l : list string) : bool :=
  match l with
  | [] => true
  | x :: r => negb (existsb (String.eqb x) r) && distinct r
  end.

(** A directory tree as a file system has it: the names of one directory
    differ from each other and hold no separator. *)
Fixpoint well_formed (n : node) : bool :=
  match n with
  | Regular _ _ => true
  | Directory listing =>
      distinct (map fst listing)
      && forallb (λ e, negb (has_slash e.1) && well_formed e.2) listing
  end.

(** ** What the walk adds, said without an accumulator *)

(** Induction over a directory tree, with the property at hand for every
    entry of a directory. *)
Fixpoint node_induction (P : node → Prop)
    (HRegular : ∀ size atime, P (Regular size atime))
    (HDirectory : ∀ listing, Forall (λ e, P e.2) listing →
                             P (Directory listing))
    (n : node) : P n :=
  match n with
  | Regular size atime => HRegular size atime
  | Directory listing =>
      HDirectory listing
        ((fix entries (l : list (string * node)) : Forall (λ e, P e.2) l :=
            match l with
            | [] => @List.Forall_nil _ _
            | e :: r =>
                @List.Forall_cons _ _ e r
                  (node_induction P HRegular HDirectory e.2) (entries r)
            end) listing)
  end.

(** The files a walk from [path] finds in the node [n]. *)
Fixpoint node_files (path : string) (n : node) : list FileInfo :=
  match n with
  | Regular size atime =>
      [{| fi_size_bytes := size; fi_atime_sec := atime; fi_name := path |}]
  | Directory listing =>
      flat_map (λ e, node_files (join path e.1) e.2) listing
  end.

(** The empty directories a walk from [path] finds in the node [n]. *)
Fixpoint node_empty_dirs (path : string) (n : node) : list string :=
  match n with
  | Regular _ _ => []
  | Directory listing =>
      match listing with
      | [] => [path]
      | _ => flat_map (λ e, node_empty_dirs (join path e.1) e.2) listing
      end
  end.

(** The entries a walk counts in the node [n]: those of every listing it
    reads. *)
Fixpoint below_count (n : node) : nat :=
  match n with
  | Regular _ _ => 0
  | Directory listing =>
      (length listing
       + fold_right (λ e k, below_count e.2 + k) 0 listing)%nat
  end.

(** The bytes of the regular files of a tree, counted on the tree. *)
Fixpoint node_size (n : node) : Z :=
  match n with
  | Regular size _ => size
  | Directory listing => fold_right (λ e k, node_size e.2 + k) 0 listing
  end.

(** A record with files, empty directories and entries added. *)
Definition added (di : DirInfo) (fs : list FileInfo) (ds : list string)
    (k : nat) : DirInfo :=
  {| files := files di ++ fs; empty_dirs := empty_dirs di ++ ds;
     size_bytes := int64_wrap (size_bytes di + sum_sizes fs);
     inode_count := int64_wrap (inode_count di + Z.of_nat k) |}.

(** The counters of a record are values of an [int64]. *)
Definition int64_ok (di : DirInfo) : Prop :=
  in_int64 (size_bytes di) ∧ in_int64 (inode_count di).

(** What follows a path inside a longer one: nothing, or a separator
    and more. *)
Definition tail_ok (r : string) : Prop :=
  match r with
  | EmptyString => True
  | String c _ => is_slash c = true
  end.

(** ** Vocabulary for reasoning about the reference backend *)

(** A path is clean when its parent is not written with a separator at
    its end (no empty component before the last name). *)
Definition clean (name : string) : bool :=
  match dirname name with
  | Some d => negb (ends_in_slash d)
  | None => true
  end.

Abbreviation store := (gmap string Mem.entry).

(** [extends Q st st']: from [st] to [st'] the store went through
    contents that all satisfy [Q]. *)
Definition extends (Q : store → Prop) (st st' : Mem.state) : Prop :=
  ∃ steps, Mem.history st' = steps ++ Mem.history st ∧ Forall Q steps.

(** [preserves Q m]: run from a store in [Q], the method [m] ends in a
    store in [Q] and never leaves [Q] on the way. *)
Definition preserves {A} (Q : store → Prop) (m : M Mem.state A) : Prop :=
  ∀ st a st', m st = (a, st') → Q (Mem.entries st) →
              Q (Mem.entries st') ∧ extends Q st st'.

(** [returns R m]: whatever [m] returns satisfies [R]. *)
Definition returns {A} (R : A → Prop) (m : M Mem.state A) : Prop :=
  ∀ st a st', m st = (a, st') → R a.

(** A property of stores that making a directory cannot break. *)
Definition dir_closed (Q : store → Prop) : Prop :=
  ∀ e d, Q e → e !! d = None → Mem.parent_ok e d = true →
         Q (<[d := Mem.EDir]> e).

(** A property of stores that no change at the path [t] can break. *)
Definition blind_to (t : string) (Q : store → Prop) : Prop :=
  ∀ e, Q e → (∀ v, Q (<[t := v]> e)) ∧ Q (delete t e).

(** The store is a hierarchy: whatever exists sits in a directory. *)
Definition wf (e : store) : Prop :=
  ∀ p, is_Some (e !! p) → Mem.parent_ok e p = true.

(** [name] can be the path of a regular file of the store: it is clean,
    none of its ancestors is a regular file, and it is no directory. *)
Definition can_hold_file (e : store) (name : string) : Prop :=
  clean name = true
  ∧ (∀ a, In a (ancestors name) → Mem.content_of e a = None)
  ∧ Mem.is_dir e name = false.

(** ** Inputs the properties are tried on *)

Definition abc : bytes := [Byte.x61; Byte.x62; Byte.x63].

Definition xy : bytes := [Byte.x78; Byte.x79].

(** A store with the one file "f", which holds "abc". *)
Definition one_file : Mem.state :=
  Mem.commit {[ "f"%string := Mem.EFile abc ]} Mem.empty.

(** The lock "lock", claimed by a first party when the backend's clock
    reads 0. *)
Definition held_at_0 : Mem.state := (TryLock Mem.fs "lock" tt Mem.empty).2.

(** An open for output three levels down in an empty store. *)
Definition opened_deep : option OutputFile * Mem.state :=
  OpenOutputFile Mem.fs "a/b/c.txt" tt Mem.empty.

(** A directory with files of 10, 20 and 30 bytes and one empty
    subdirectory. *)
Definition cache_listing : list (string * node) :=
  [("a"%string, Regular 10 1); ("b"%string, Regular 20 2);
   ("c"%string, Regular 30 3); ("d"%string, Directory [])].

(** ** BoolOrError objects and their mutations

    The copy constructor and [operator=] take their source by reference,
    and [operator=] asks whether the source is the object itself: objects
    live at addresses, and a heap maps an address to the object there. *)

Abbreviation address := nat.
Abbreviation objects := (gmap address BoolOrError).

(** [BoolOrError(const BoolOrError& src) : choice_(src.choice_) {}]: the
    object under construction sits at [this]. *)
Definition copy_construct (this src : address) (heap : objects) : objects :=
  match heap !! src with
  | Some s => <[this := BoolOrError.copy s]> heap
  | None => heap
  end.

(** [BoolOrError& operator=(const BoolOrError& src) {
       if (&src != this) { choice_ = src.choice_; }
       return *this; }] *)
Definition assign (this src : address) (heap : objects)
    : address * objects :=
  (this,
   if decide (src ≠ this) then
     match heap !! src with
     | Some s => <[this := BoolOrError.mk (BoolOrError.choice_ s)]> heap
     | None => heap
     end
   else heap).

(** The two mutators, [set_error()] and [set(bool)], as data, and a run
    of them on one object, first to last. *)
Inductive mutation := CallSetError | CallSet (t_or_f : bool).

Definition mutate (x : BoolOrError) (m : mutation) : BoolOrError :=
  match m with
  | CallSetError => BoolOrError.set_error x
  | CallSet t_or_f => BoolOrError.set t_or_f x
  end.

Definition mutate_all (ms : list mutation) (x : BoolOrError) : BoolOrError :=
  fold_left mutate ms x.

(** A run of [BumpLockTimeout] calls, one per name, that reports whether
    all of them returned true. *)
Fixpoint bump_all {S MessageHandler : Type}
    (fs : FileSystem S MessageHandler) (lock_names : list string)
    (handler : MessageHandler) : M S bool :=
  match lock_names with
  | [] => ret true
  | lock_name :: rest =>
      let* bumped := BumpLockTimeout fs lock_name handler in
      let* others := bump_all fs rest handler in
      ret (bumped && others)
  end.

(** Two objects, the one at 1 true and the one at 2 in the error state. *)
Definition two_objects : objects :=
  {[ 1%nat := BoolOrError.of_bool true; 2%nat := BoolOrError.default ]}.

(** * Properties *)

(** ** The tri-state result *)

Import BoolOrError.

(** C7. A default-constructed BoolOrError is in the error state; one
    built from a boolean [b], or set to [b], has [is_true = b],
    [is_false = negb b] and no error; [set_error] brings the error state
    about; and of the three predicates exactly one holds of any value. *)
Theorem BoolOrError_tri_state :
  (is_error default = true ∧ is_true default = false
   ∧ is_false default = false)
  ∧ (∀ b, is_true (of_bool b) = b ∧ is_false (of_bool b) = negb b
          ∧ is_error (of_bool b) = false)
  ∧ (∀ b x, is_true (set b x) = b ∧ is_false (set b x) = negb b
            ∧ is_error (set b x) = false)
  ∧ (∀ x, is_error (set_error x) = true)
  ∧ (∀ x, (is_false x, is_true x, is_error x) = (true, false, false)
          ∨ (is_false x, is_true x, is_error x) = (false, true, false)
          ∨ (is_false x, is_true x, is_error x) = (false, false, true)).
Proof.
  split; [done|].
  split; [by intros []|].
  split; [by intros [] ?|].
  split; [done|].
  intros [[]]; cbv; auto.
Qed.

(** ** The defaults of the lock protocol *)

Section Defaults.

Context {S MessageHandler : Type}.
Variable fs : FileSystem S MessageHandler.

(** C2. The default TryLockWithTimeout is TryLock: whatever the timeout
    and the timer, it gives the result TryLock gives on that name (and
    leaves the world as TryLock leaves it). *)
Theorem TryLockWithTimeout_default_is_TryLock
    (lock_name : string) (timeout_millis : Z) (timer : Timer)
    (handler : MessageHandler) (st : S) :
  TryLockWithTimeout fs lock_name timeout_millis timer handler st
  = TryLock fs lock_name handler st.
Proof. reflexivity. Qed.

(** C10. The default BumpLockTimeout returns true for every lock name
    and changes nothing: the world after the call is the world before
    it, and no method of the backend has a part in the result. *)
Theorem BumpLockTimeout_default_noop
    (lock_name : string) (handler : MessageHandler) (st : S) :
  BumpLockTimeout fs lock_name handler st = (true, st)
  ∧ ∀ other : FileSystem S MessageHandler,
      BumpLockTimeout other lock_name handler st
      = BumpLockTimeout fs lock_name handler st.
Proof. split; reflexivity. Qed.

End Defaults.

(** ** Size-limited reads *)

Lemma read_blocks_unlimited (blocks : list bytes) (acc : bytes) :
  Mem.read_blocks blocks acc kUnlimitedSize = Some (acc ++ concat blocks).
Proof.
  revert acc; induction blocks as [|b rest IH]; intros acc; simpl.
  - by rewrite app_nil_r.
  - by rewrite IH, app_assoc.
Qed.

Lemma read_blocks_limited (blocks : list bytes) (acc : bytes) (max : Z) :
  0 ≤ max → Z.of_nat (length acc) ≤ max →
  Mem.read_blocks blocks acc max
  = if Z.of_nat (length (acc ++ concat blocks)) <=? max
    then Some (acc ++ concat blocks) else None.
Proof.
  intros Hmax; revert acc.
  induction blocks as [|b rest IH]; intros acc Hacc; simpl.
  - rewrite app_nil_r. by destruct (Z.leb_spec (Z.of_nat (length acc)) max); [|lia].
  - assert ((max =? kUnlimitedSize) = false) as -> by (unfold kUnlimitedSize; lia).
    simpl. destruct (Z.ltb_spec max (Z.of_nat (length (acc ++ b)))) as [Hover|Hfit].
    + destruct (Z.leb_spec (Z.of_nat (length (acc ++ b ++ concat rest))) max) as [Hle|]; [|done].
      rewrite !length_app in *. lia.
    + rewrite IH by done. by rewrite <- app_assoc.
Qed.

Lemma concat_blocks_of (c : bytes) : concat (Mem.blocks_of c) = c.
Proof. induction c as [|b c IH]; simpl; [done|by rewrite IH]. Qed.

(** C5. A size-limited read with a limit that is not negative fails,
    handing out no content, when the file holds more than max_file_size
    bytes, and succeeds with exactly the whole content otherwise: both for
    a handle, whatever blocks its reads come in, and for a file name. *)
Theorem ReadFile_size_limit {MessageHandler : Type} (handler : MessageHandler)
    (st : Mem.state) (max_file_size : Z) :
  0 ≤ max_file_size →
  (∀ f : InputFile,
     ReadFile_input Mem.fs (Some f) max_file_size handler st
     = (if Z.of_nat (length (concat (in_blocks f))) <=? max_file_size
        then Some (concat (in_blocks f)) else None, st))
  ∧ (∀ filename content,
       Mem.entries st !! filename = Some (Mem.EFile content) →
       ReadFile Mem.fs filename max_file_size handler st
       = (if Z.of_nat (length content) <=? max_file_size
          then Some content else None, st)).
Proof.
  intros Hmax.
  assert (∀ f : InputFile,
     ReadFile_input Mem.fs (Some f) max_file_size handler st
     = (if Z.of_nat (length (concat (in_blocks f))) <=? max_file_size
        then Some (concat (in_blocks f)) else None, st)) as Hhandle.
  { intros f. unfold ReadFile_input, bind, Close; simpl.
    unfold Mem.InputFile_ReadFile, Mem.File_Close, ret.
    rewrite read_blocks_limited by (simpl; lia). done. }
  split; [exact Hhandle|].
  intros filename content Hfile.
  unfold ReadFile, bind; simpl. unfold Mem.OpenInputFile. rewrite Hfile.
  rewrite Hhandle; simpl. by rewrite concat_blocks_of.
Qed.

Lemma ReadFile_size_limit_witness :
  ReadFile Mem.fs "f" 3 tt one_file = (Some abc, one_file)
  ∧ ReadFile Mem.fs "f" 2 tt one_file = (None, one_file).
Proof.
  split.
  - apply (proj2 (ReadFile_size_limit tt one_file 3 ltac:(lia)) "f"%string abc).
    reflexivity.
  - apply (proj2 (ReadFile_size_limit tt one_file 2 ltac:(lia)) "f"%string abc).
    reflexivity.
Defined.

Lemma ReadFile_input_unlimited {MessageHandler : Type}
    (handler : MessageHandler) (st : Mem.state) (f : InputFile) :
  ReadFile_input Mem.fs (Some f) kUnlimitedSize handler st
  = (Some (concat (in_blocks f)), st).
Proof.
  unfold ReadFile_input, bind, Close; simpl.
  unfold Mem.InputFile_ReadFile, Mem.File_Close, ret.
  by rewrite read_blocks_unlimited.
Qed.

(** What a reader without a limit gets from a file name is the content
    the store holds under it when the file is opened. *)
Lemma ReadFile_unlimited_content {MessageHandler : Type}
    (handler : MessageHandler) (st : Mem.state) (name : string) :
  ReadFile Mem.fs name kUnlimitedSize handler st
  = (Mem.content_of (Mem.entries st) name, st).
Proof.
  unfold ReadFile, bind, Mem.content_of; simpl. unfold Mem.OpenInputFile.
  destruct (Mem.entries st !! name) as [[c|]|]; try done.
  rewrite ReadFile_input_unlimited; simpl. by rewrite concat_blocks_of.
Qed.

Lemma ReadFile_unlimited {MessageHandler : Type}
    (handler : MessageHandler) (st : Mem.state) (name : string)
    (content : bytes) :
  Mem.content_of (Mem.entries st) name = Some content →
  ReadFile Mem.fs name kUnlimitedSize handler st = (Some content, st).
Proof. intros <-. apply ReadFile_unlimited_content. Qed.

(** C9. kUnlimitedSize is -1 (all 64 bits set), and a read under it has
    no limit: a handle yields all its blocks and a file name the whole
    content, whatever their length. *)
Theorem kUnlimitedSize_no_limit {MessageHandler : Type}
    (handler : MessageHandler) (st : Mem.state) :
  kUnlimitedSize = -1
  ∧ int64_bits kUnlimitedSize = 2 ^ 64 - 1
  ∧ (∀ f : InputFile,
       ReadFile_input Mem.fs (Some f) kUnlimitedSize handler st
       = (Some (concat (in_blocks f)), st))
  ∧ (∀ name content,
       Mem.content_of (Mem.entries st) name = Some content →
       ReadFile Mem.fs name kUnlimitedSize handler st
       = (Some content, st)).
Proof.
  split; [done|]. split; [done|].
  split; [apply ReadFile_input_unlimited|apply ReadFile_unlimited].
Qed.

(** ** The lock protocol on the reference backend *)

Section Locks.

Context {MessageHandler : Type}.
Variable handler : MessageHandler.

Abbreviation mem := (Mem.fs (MessageHandler := MessageHandler)).

Lemma TryLock_free (st : Mem.state) (lock_name : string) :
  Mem.locks st !! lock_name = None →
  Mem.TryLock lock_name handler st
  = (of_bool true,
     Mem.set_locks (<[lock_name := Mem.clock st]> (Mem.locks st)) st).
Proof. intros Hfree. unfold Mem.TryLock. by rewrite Hfree. Qed.

Lemma TryLock_held (st : Mem.state) (lock_name : string) :
  is_Some (Mem.locks st !! lock_name) →
  Mem.TryLock lock_name handler st = (of_bool false, st).
Proof. intros [last Hheld]. unfold Mem.TryLock. by rewrite Hheld. Qed.

(** C3. On a name nobody holds, a first TryLock returns true and a
    second one, with no Unlock in between, returns false and changes
    nothing; after an Unlock of the name that reports success, TryLock
    returns true again. *)
Theorem TryLock_true_false_true (st : Mem.state) (lock_name : string) :
  Mem.locks st !! lock_name = None →
  let first := TryLock mem lock_name handler st in
  let second := TryLock mem lock_name handler first.2 in
  is_true first.1 = true
  ∧ is_false second.1 = true
  ∧ second.2 = first.2
  ∧ ∀ released : Mem.state,
      Unlock mem lock_name handler second.2 = (true, released) →
      is_true (TryLock mem lock_name handler released).1 = true.
Proof.
  intros Hfree; simpl.
  rewrite (TryLock_free st) by done; simpl.
  rewrite TryLock_held by (simpl; rewrite lookup_insert_eq; eauto); simpl.
  split; [done|]. split; [done|]. split; [done|].
  intros released Hrel. unfold Mem.Unlock in Hrel.
  injection Hrel as <-.
  rewrite TryLock_free; [done|]. simpl. apply lookup_delete_eq.
Qed.

(** The reference backend with the stale-lock overrides: after a claim
    or a bump the lock carries the reading of the backend's clock. *)
Lemma TryLock_stamps (st : Mem.state) (lock_name : string) :
  Mem.locks st !! lock_name = None →
  Mem.locks (TryLock mem lock_name handler st).2 !! lock_name
  = Some (Mem.clock st).
Proof.
  intros Hfree; simpl. unfold Mem.TryLock. rewrite Hfree; simpl.
  apply lookup_insert_eq.
Qed.

Lemma BumpLockTimeout_stamps (st : Mem.state) (lock_name : string) :
  is_Some (Mem.locks st !! lock_name) →
  Mem.locks (Mem.BumpLockTimeout lock_name handler st).2 !! lock_name
  = Some (Mem.clock st).
Proof.
  intros [last Hheld]. unfold Mem.BumpLockTimeout. rewrite Hheld; simpl.
  apply lookup_insert_eq.
Qed.

(** C4, as the code has it.  For a lock held since [last_claimed] (its
    first claim or last bump): before timeout_millis have gone by,
    TryLockWithTimeout returns false, in the default implementation and
    in a backend that overrides it to break stale locks alike; after more
    than timeout_millis, the overriding backend returns true and takes the
    lock over, while the default implementation, which never breaks a
    lock, still returns false as TryLock does. *)
Theorem TryLockWithTimeout_stale_takeover (st : Mem.state)
    (lock_name : string) (timeout_millis last_claimed : Z) (timer : Timer) :
  Mem.locks st !! lock_name = Some last_claimed →
  (NowMs timer - last_claimed < timeout_millis →
     Mem.TryLockWithTimeout lock_name timeout_millis timer handler st
     = (of_bool false, st)
     ∧ TryLockWithTimeout mem lock_name timeout_millis timer handler st
       = (of_bool false, st))
  ∧ (timeout_millis < NowMs timer - last_claimed →
     Mem.TryLockWithTimeout lock_name timeout_millis timer handler st
     = (of_bool true,
        Mem.set_locks (<[lock_name := NowMs timer]> (Mem.locks st)) st)
     ∧ TryLockWithTimeout mem lock_name timeout_millis timer handler st
       = (of_bool false, st)).
Proof.
  intros Hheld.
  assert (TryLockWithTimeout mem lock_name timeout_millis timer handler st
          = (of_bool false, st)) as Hdefault.
  { unfold TryLockWithTimeout; simpl. unfold Mem.TryLock. by rewrite Hheld. }
  split; intros Htime; (split; [|exact Hdefault]);
    unfold Mem.TryLockWithTimeout; rewrite Hheld.
  - by destruct (Z.ltb_spec timeout_millis (NowMs timer - last_claimed)); [lia|].
  - by destruct (Z.ltb_spec timeout_millis (NowMs timer - last_claimed)); [|lia].
Qed.

End Locks.

Lemma TryLock_true_false_true_witness :
  let first := TryLock Mem.fs "lock" tt Mem.empty in
  let second := TryLock Mem.fs "lock" tt first.2 in
  is_true first.1 = true
  ∧ is_false second.1 = true
  ∧ second.2 = first.2
  ∧ ∀ released : Mem.state,
      Unlock Mem.fs "lock" tt second.2 = (true, released) →
      is_true (TryLock Mem.fs "lock" tt released).1 = true.
Proof. apply (TryLock_true_false_true tt Mem.empty "lock"). reflexivity. Defined.

(** C4 fails on the method the header defines: 100 ms after the claim, a
    second party asking with a timeout of 10 ms is refused. *)
Lemma TryLockWithTimeout_default_never_breaks :
  Mem.locks held_at_0 !! "lock"%string = Some 0
  ∧ 10 < NowMs {| NowMs := 100 |} - 0
  ∧ is_true
      (TryLockWithTimeout Mem.fs "lock" 10 {| NowMs := 100 |} tt held_at_0).1
    = false.
Proof. split; [reflexivity|]. split; [reflexivity|]. reflexivity. Qed.

Lemma TryLockWithTimeout_stale_takeover_witness :
  Mem.TryLockWithTimeout "lock" 10 {| NowMs := 100 |} tt held_at_0
  = (of_bool true,
     Mem.set_locks (<["lock"%string := 100]> (Mem.locks held_at_0)) held_at_0)
  ∧ Mem.TryLockWithTimeout "lock" 10 {| NowMs := 5 |} tt held_at_0
    = (of_bool false, held_at_0).
Proof.
  split.
  - refine (proj1 (proj2 (TryLockWithTimeout_stale_takeover tt held_at_0
                            "lock" 10 0 {| NowMs := 100 |} _) _));
      [reflexivity|simpl; lia].
  - refine (proj1 (proj1 (TryLockWithTimeout_stale_takeover tt held_at_0
                            "lock" 10 0 {| NowMs := 5 |} _) _));
      [reflexivity|simpl; lia].
Defined.

(** ** Paths: ancestors form a chain *)

Lemma cuts_split (s : string) (l1 : list string) (a : string)
    (l2 : list string) :
  cuts s = l1 ++ a :: l2 → cuts a = l1.
Proof.
  revert l1 a l2; induction s as [|c r IH]; intros l1 a l2; simpl.
  - by destruct l1.
  - assert (∀ k1 k2, map (String c) (cuts r) = k1 ++ a :: k2 →
                     ∃ a', a = String c a' ∧ k1 = map (String c) (cuts a'))
      as Hmap.
    { intros k1 k2 Heq.
      apply map_eq_app in Heq as (m1 & m2 & Hr & <- & Hm2).
      apply map_eq_cons in Hm2 as (a' & m2' & -> & <- & _).
      exists a'. split; [done|]. by rewrite (IH _ _ _ Hr). }
    destruct (is_slash c) eqn:Hc; simpl.
    + destruct l1 as [|x l1]; simpl; intros Heq.
      * by injection Heq as <- _.
      * injection Heq as <- Heq.
        destruct (Hmap _ _ Heq) as (a' & -> & ->). simpl. by rewrite Hc.
    + intros Heq. destruct (Hmap _ _ Heq) as (a' & -> & ->).
      simpl. by rewrite Hc.
Qed.

Lemma ancestors_split (p : string) (l1 : list string) (a : string)
    (l2 : list string) :
  ancestors p = l1 ++ a :: l2 → ancestors a = l1.
Proof.
  destruct p as [|c r]; simpl; [by destruct l1|]. intros Heq.
  apply map_eq_app in Heq as (m1 & m2 & Hr & <- & Hm2).
  apply map_eq_cons in Hm2 as (a' & m2' & -> & <- & _).
  simpl. by rewrite (cuts_split _ _ _ _ Hr).
Qed.

(** The ancestors of a path are those of its parent, and the parent. *)
Lemma ancestors_parent (p a : string) :
  last (ancestors p) = Some a → ancestors p = ancestors a ++ [a].
Proof.
  intros Hlast. apply last_Some in Hlast as [l Hl].
  by rewrite Hl, (ancestors_split _ _ _ _ Hl).
Qed.

Lemma cuts_shorter (s a : string) :
  In a (cuts s) → (String.length a < String.length s)%nat.
Proof.
  revert a; induction s as [|c r IH]; intros a; simpl; [done|].
  rewrite in_app_iff, in_map_iff. intros [Hin|(a' & <- & Hin)].
  - destruct (is_slash c); simpl in Hin; [|done].
    destruct Hin as [<-|[]]. simpl. lia.
  - specialize (IH _ Hin). simpl. lia.
Qed.

Lemma ancestors_ne (p a : string) : In a (ancestors p) → a ≠ p.
Proof.
  destruct p as [|c r]; simpl; [done|].
  rewrite in_map_iff. intros (a' & <- & Hin) Heq.
  apply cuts_shorter in Hin. injection Heq as ->. lia.
Qed.

Lemma cuts_app (x y : string) :
  cuts (x +:+ y) = cuts x ++ map (String.append x) (cuts y).
Proof.
  induction x as [|c r IH]; simpl.
  - by rewrite map_id.
  - rewrite IH, map_app, map_map, <- app_assoc. done.
Qed.

Lemma cuts_no_slash (s : string) : has_slash s = false → cuts s = [].
Proof.
  induction s as [|c r IH]; simpl; [done|].
  intros [-> Hr]%orb_false_elim. by rewrite IH.
Qed.

Lemma append_ne_self (x y : string) : y ≠ EmptyString → (x +:+ y)%string ≠ x.
Proof.
  intros Hy Heq. apply Hy.
  induction x as [|c r IH]; simpl in Heq; [done|].
  injection Heq as Heq. auto.
Qed.

(** ** Reasoning about the reference backend *)

Lemma extends_refl (Q : store → Prop) (st : Mem.state) : extends Q st st.
Proof. by exists []. Qed.

Lemma extends_trans (Q : store → Prop) (st1 st2 st3 : Mem.state) :
  extends Q st1 st2 → extends Q st2 st3 → extends Q st1 st3.
Proof.
  intros (s1 & H1 & Q1) (s2 & H2 & Q2). exists (s2 ++ s1). split.
  - by rewrite H2, H1, app_assoc.
  - by apply Forall_app.
Qed.

Lemma extends_weaken (Q R : store → Prop) (st st' : Mem.state) :
  (∀ e, Q e → R e) → extends Q st st' → extends R st st'.
Proof.
  intros HQR (s & Hs & HQ). exists s. split; [done|].
  eapply Forall_impl; eauto.
Qed.

Lemma extends_commit (Q : store → Prop) (e : store) (st : Mem.state) :
  Q e → extends Q st (Mem.commit e st).
Proof. intros HQ. exists [e]. split; [done|]. by constructor. Qed.

Lemma extends_next_temp (Q : store → Prop) (st st' : Mem.state) :
  extends Q st st' → extends Q st (Mem.next_temp st').
Proof. done. Qed.

Lemma preserves_ret {A} (Q : store → Prop) (a : A) : preserves Q (ret a).
Proof.
  intros st a' st' [= <- <-] HQ. split; [done|apply extends_refl].
Qed.

Lemma preserves_bind {A B} (Q : store → Prop) (m : M Mem.state A)
    (k : A → M Mem.state B) :
  preserves Q m → (∀ a, preserves Q (k a)) → preserves Q (bind m k).
Proof.
  intros Hm Hk st b st' Hrun HQ. unfold bind in Hrun.
  destruct (m st) as [a st1] eqn:Hm1.
  destruct (Hm _ _ _ Hm1 HQ) as [HQ1 Hext1].
  destruct (Hk a _ _ _ Hrun HQ1) as [HQ2 Hext2].
  split; [done|]. by eapply extends_trans.
Qed.

(** A method that leaves the state alone preserves everything. *)
Lemma preserves_pure {A} (Q : store → Prop) (m : M Mem.state A) :
  (∀ st, (m st).2 = st) → preserves Q m.
Proof.
  intros Hpure st a st' Hrun HQ. specialize (Hpure st).
  rewrite Hrun in Hpure; simpl in Hpure; subst st'.
  split; [done|apply extends_refl].
Qed.

Section MemFacts.

Context {MessageHandler : Type}.
Variable handler : MessageHandler.
Variable Q : store → Prop.
Hypothesis Q_dir_closed : dir_closed Q.

Abbreviation mem := (Mem.fs (MessageHandler := MessageHandler)).

Lemma preserves_MakeDir (d : string) : preserves Q (MakeDir mem d handler).
Proof.
  intros st a st' Hrun HQ; simpl in Hrun. unfold Mem.MakeDir in Hrun.
  unfold Mem.exists_ in Hrun.
  destruct (Mem.entries st !! d) eqn:Hd.
  { injection Hrun as <- <-. split; [done|apply extends_refl]. }
  destruct (Mem.parent_ok (Mem.entries st) d) eqn:Hp.
  - injection Hrun as <- <-. simpl.
    assert (Q (<[d := Mem.EDir]> (Mem.entries st))) by by apply Q_dir_closed.
    split; [done|]. by apply extends_commit.
  - injection Hrun as <- <-. split; [done|apply extends_refl].
Qed.

Lemma preserves_make_dirs (ds : list string) :
  preserves Q (make_dirs mem ds handler).
Proof.
  induction ds as [|d rest IH]; simpl; [apply preserves_ret|].
  apply preserves_bind; [by apply preserves_pure|]. intros e.
  destruct (is_false e).
  - apply preserves_bind; [apply preserves_MakeDir|]. intros [].
    + apply IH.
    + apply preserves_ret.
  - apply preserves_bind; [by apply preserves_pure|]. intros dir.
    destruct (is_true dir); [apply IH|apply preserves_ret].
Qed.

Lemma preserves_SetupFileDir (name : string) :
  preserves Q (SetupFileDir mem name handler).
Proof.
  unfold SetupFileDir. destruct (dirname name); [|apply preserves_ret].
  apply preserves_bind; [apply preserves_make_dirs|].
  intros _. apply preserves_ret.
Qed.

End MemFacts.

Lemma is_dir_insert_ne (e : store) (p a : string) (v : Mem.entry) :
  a ≠ p → Mem.is_dir (<[p := v]> e) a = Mem.is_dir e a.
Proof. intros Hne. unfold Mem.is_dir. by rewrite lookup_insert_ne. Qed.

Lemma parent_ok_insert (e : store) (p q : string) (v : Mem.entry) :
  (Mem.is_dir e p = true → v = Mem.EDir) →
  Mem.parent_ok e q = true → Mem.parent_ok (<[p := v]> e) q = true.
Proof.
  unfold Mem.parent_ok. intros Hv. destruct (last (ancestors q)) as [a|]; [|done].
  unfold Mem.is_dir in *. destruct (decide (p = a)) as [->|Hne].
  - rewrite lookup_insert_eq. intros Ha. by rewrite Hv.
  - by rewrite lookup_insert_ne.
Qed.

Lemma parent_ne (p a : string) :
  last (ancestors p) = Some a → a ≠ p.
Proof.
  intros Hlast. apply ancestors_ne. rewrite (ancestors_parent _ _ Hlast).
  apply in_app_iff. right. by left.
Qed.

Lemma wf_insert (e : store) (p : string) (v : Mem.entry) :
  wf e → Mem.parent_ok e p = true → (Mem.is_dir e p = true → v = Mem.EDir) →
  wf (<[p := v]> e).
Proof.
  intros Hwf Hp Hv q Hq. apply parent_ok_insert; [done|].
  destruct (decide (p = q)) as [<-|Hne]; [done|].
  rewrite lookup_insert_ne in Hq by done. by apply Hwf.
Qed.

Lemma wf_delete (e : store) (p : string) :
  wf e → Mem.is_dir e p = false → wf (delete p e).
Proof.
  intros Hwf Hp q Hq.
  destruct (decide (p = q)) as [<-|Hne].
  { rewrite lookup_delete_eq in Hq. by destruct Hq. }
  rewrite lookup_delete_ne in Hq by done. specialize (Hwf q Hq).
  unfold Mem.parent_ok in *. destruct (last (ancestors q)) as [a|]; [|done].
  unfold Mem.is_dir in *. destruct (decide (p = a)) as [->|Hna].
  - by rewrite Hp in Hwf.
  - by rewrite lookup_delete_ne.
Qed.

Lemma wf_dir_closed : dir_closed wf.
Proof. intros e d Hwf _ Hp. by apply wf_insert. Qed.

(** In a hierarchy, a path whose parent is a directory has all its
    ancestors. *)
Lemma wf_ancestors (e : store) (p : string) :
  wf e → Mem.parent_ok e p = true →
  ∀ a, In a (ancestors p) → Mem.is_dir e a = true.
Proof.
  intros Hwf.
  remember (length (ancestors p)) as n eqn:Hn.
  revert p Hn; induction n as [n IH] using lt_wf_ind; intros p Hn Hp a Ha.
  unfold Mem.parent_ok in Hp.
  destruct (last (ancestors p)) as [a0|] eqn:Hlast.
  - pose proof (ancestors_parent _ _ Hlast) as Hchain.
    rewrite Hchain in Ha. apply in_app_iff in Ha as [Ha|[<-|[]]]; [|done].
    apply (IH (length (ancestors a0))) with (p := a0); [|done| |done].
    + rewrite Hn, Hchain, length_app; simpl. lia.
    + apply Hwf. unfold Mem.is_dir in Hp.
      destruct (e !! a0); [eauto|done].
  - apply last_None in Hlast. by rewrite Hlast in Ha.
Qed.

Lemma content_of_mkdir (e : store) (d q : string) :
  e !! d = None → Mem.content_of (<[d := Mem.EDir]> e) q = Mem.content_of e q.
Proof.
  intros Hd. unfold Mem.content_of. destruct (decide (d = q)) as [<-|Hne].
  - by rewrite lookup_insert_eq, Hd.
  - by rewrite lookup_insert_ne.
Qed.

Lemma content_of_blind (t name : string) (old : option bytes) :
  t ≠ name → blind_to t (λ e, Mem.content_of e name = old).
Proof.
  intros Hne e He. unfold Mem.content_of in *. split; [intros v|].
  - by rewrite lookup_insert_ne.
  - by rewrite lookup_delete_ne.
Qed.

Lemma string_app_assoc (x y z : string) :
  ((x +:+ y) +:+ z)%string = (x +:+ (y +:+ z))%string.
Proof.
  induction x as [|c r IH]; [done|].
  change (String c ((r +:+ y) +:+ z) = String c (r +:+ (y +:+ z)))%string.
  by rewrite IH.
Qed.

(** A temporary name is never the name it is derived from. *)
Lemma temp_name_ne (name : string) (n : nat) :
  ((name +:+ ".temp") +:+ Mem.temp_suffix n)%string ≠ name.
Proof. rewrite string_app_assoc. by apply append_ne_self. Qed.

Lemma wf_empty : wf (Mem.entries Mem.empty).
Proof. intros p [v Hv]. simpl in Hv. by rewrite lookup_empty in Hv. Qed.


(** ** The store stays a hierarchy *)

Section Hierarchy.

Context {MessageHandler : Type}.
Variable handler : MessageHandler.

Lemma wf_put_file (e : store) (p : string) (c : bytes) :
  wf e → Mem.parent_ok e p = true → Mem.is_dir e p = false →
  wf (<[p := Mem.EFile c]> e).
Proof.
  intros Hwf Hp Hd. apply wf_insert; [done|done|]. by rewrite Hd.
Qed.

Lemma wf_write_bytes (t : string) (buf : bytes) :
  preserves wf (Mem.write_bytes t buf).
Proof.
  induction buf as [|b rest IH]; simpl.
  - intros st a st' [= <- <-] Hwf. split; [done|apply extends_refl].
  - intros st a st' Hrun Hwf.
    destruct (Mem.entries st !! t) as [[c|]|] eqn:Ht;
      try (injection Hrun as <- <-; split; [done|apply extends_refl]).
    assert (wf (<[t := Mem.EFile (c ++ [b])]> (Mem.entries st))) as Hwf1.
    { apply wf_put_file; [done|apply Hwf; by rewrite Ht|].
      unfold Mem.is_dir. by rewrite Ht. }
    destruct (IH _ _ _ Hrun Hwf1) as [Hwf2 Hext]. split; [done|].
    eapply extends_trans; [|exact Hext]. by apply extends_commit.
Qed.

Lemma wf_RemoveFile (name : string) :
  preserves wf (Mem.RemoveFile name handler).
Proof.
  intros st a st' Hrun Hwf. unfold Mem.RemoveFile in Hrun.
  destruct (Mem.entries st !! name) as [[c|]|] eqn:Hn;
    try (injection Hrun as <- <-; split; [done|apply extends_refl]).
  injection Hrun as <- <-. simpl.
  assert (wf (delete name (Mem.entries st))) as Hwf1.
  { apply wf_delete; [done|]. unfold Mem.is_dir. by rewrite Hn. }
  split; [done|]. by apply extends_commit.
Qed.

Lemma wf_OpenOutputFileHelper (name : string) (append : bool) :
  preserves wf (Mem.OpenOutputFileHelper name append handler).
Proof.
  intros st a st' Hrun Hwf. unfold Mem.OpenOutputFileHelper in Hrun.
  destruct (Mem.parent_ok (Mem.entries st) name) eqn:Hp;
    [|injection Hrun as <- <-; split; [done|apply extends_refl]].
  assert (Mem.is_dir (Mem.entries st) name = false →
          wf (<[name := Mem.EFile []]> (Mem.entries st))) as Hput
    by by apply wf_put_file.
  unfold Mem.is_dir in Hput.
  destruct (Mem.entries st !! name) as [[c|]|]; injection Hrun as <- <-;
    try (split; [done|apply extends_refl]).
  - destruct append; [split; [done|apply extends_refl]|].
    split; [by apply Hput|]. by apply extends_commit, Hput.
  - split; [by apply Hput|]. by apply extends_commit, Hput.
Qed.

Lemma wf_OpenTempFileHelper (prefix_name : string) :
  preserves wf (Mem.OpenTempFileHelper prefix_name handler).
Proof.
  intros st a st' Hrun Hwf. unfold Mem.OpenTempFileHelper in Hrun.
  destruct (Mem.parent_ok _ _) eqn:Hp; simpl in Hrun;
    [|injection Hrun as <- <-; split;
      [done|apply extends_next_temp, extends_refl]].
  unfold Mem.exists_ in Hrun.
  destruct (Mem.entries st !! _) eqn:Hfree; simpl in Hrun;
    injection Hrun as <- <-;
    [split; [done|apply extends_next_temp, extends_refl]|].
  simpl.
  assert (wf (<[(prefix_name +:+ Mem.temp_suffix (Mem.temp_counter st))%string
                := Mem.EFile []]> (Mem.entries st))) as Hwf1.
  { apply wf_put_file; [done|done|]. unfold Mem.is_dir. by rewrite Hfree. }
  split; [done|]. by apply extends_next_temp, extends_commit.
Qed.

Lemma wf_RenameFileHelper (old_name new_name : string) :
  preserves wf (Mem.RenameFileHelper old_name new_name handler).
Proof.
  intros st a st' Hrun Hwf. unfold Mem.RenameFileHelper in Hrun.
  destruct (Mem.entries st !! old_name) as [[c|]|] eqn:Hold;
    try (injection Hrun as <- <-; split; [done|apply extends_refl]).
  destruct (Mem.parent_ok _ _) eqn:Hp; simpl in Hrun;
    [|injection Hrun as <- <-; split; [done|apply extends_refl]].
  destruct (Mem.is_dir _ _) eqn:Hd; simpl in Hrun;
    injection Hrun as <- <-; [split; [done|apply extends_refl]|].
  simpl.
  assert (Mem.is_dir (Mem.entries st) old_name = false) as Hfile
    by (unfold Mem.is_dir; by rewrite Hold).
  assert (wf (<[new_name := Mem.EFile c]> (delete old_name (Mem.entries st))))
    as Hwf1.
  { apply wf_put_file; [by apply wf_delete| |].
    - unfold Mem.parent_ok in *.
      destruct (last (ancestors new_name)) as [p|]; [|done].
      unfold Mem.is_dir in *. destruct (decide (old_name = p)) as [<-|Hne].
      + by rewrite Hold in Hp.
      + by rewrite lookup_delete_ne.
    - unfold Mem.is_dir in *. destruct (decide (old_name = new_name)) as [<-|Hne].
      + by rewrite lookup_delete_eq.
      + by rewrite lookup_delete_ne. }
  split; [done|]. by apply extends_commit.
Qed.

(** Every method of the reference backend keeps the store a hierarchy,
    at every step. *)
Lemma Mem_keeps_hierarchy :
  (∀ name, preserves wf (OpenInputFile Mem.fs name handler))
  ∧ (∀ f max, preserves wf (InputFile_ReadFile Mem.fs f max handler))
  ∧ (∀ f buf, preserves wf (OutputFile_Write Mem.fs f buf handler))
  ∧ (∀ f, preserves wf (File_Close Mem.fs f handler))
  ∧ (∀ name, preserves wf (RemoveFile Mem.fs name handler))
  ∧ (∀ d, preserves wf (MakeDir Mem.fs d handler))
  ∧ (∀ p, preserves wf (Exists Mem.fs p handler))
  ∧ (∀ p, preserves wf (IsDir Mem.fs p handler))
  ∧ (∀ name, preserves wf (TryLock Mem.fs name handler))
  ∧ (∀ name, preserves wf (Unlock Mem.fs name handler))
  ∧ (∀ name append,
       preserves wf (OpenOutputFileHelper Mem.fs name append handler))
  ∧ (∀ name, preserves wf (OpenTempFileHelper Mem.fs name handler))
  ∧ (∀ old_name new_name,
       preserves wf (RenameFileHelper Mem.fs old_name new_name handler)).
Proof.
  repeat match goal with |- _ ∧ _ => split end.
  - intros name st a st' Hrun Hwf. simpl in Hrun.
    unfold Mem.OpenInputFile in Hrun.
    destruct (Mem.entries st !! name) as [[c|]|]; injection Hrun as <- <-;
      (split; [done|apply extends_refl]).
  - intros f max. by apply preserves_pure.
  - intros f buf. apply wf_write_bytes.
  - intros f. by apply preserves_pure.
  - intros name. apply wf_RemoveFile.
  - intros d. apply preserves_MakeDir, wf_dir_closed.
  - intros p. by apply preserves_pure.
  - intros p. by apply preserves_pure.
  - intros name st a st' Hrun Hwf. simpl in Hrun. unfold Mem.TryLock in Hrun.
    destruct (Mem.locks st !! name); injection Hrun as <- <-;
      (split; [done|by exists []]).
  - intros name st a st' [= <- <-] Hwf. split; [done|by exists []].
  - intros name append. apply wf_OpenOutputFileHelper.
  - intros name. apply wf_OpenTempFileHelper.
  - intros old_name new_name. apply wf_RenameFileHelper.
Qed.

End Hierarchy.

(** ** Opens succeed where a file can be *)

Lemma append_cons (c : ascii) (r y : string) :
  (String c r +:+ y)%string = String c (r +:+ y).
Proof. reflexivity. Qed.

Lemma dirname_no_slash (s : string) : has_slash s = false → dirname s = None.
Proof.
  induction s as [|c r IH]; simpl; [done|].
  intros [-> Hr]%orb_false_elim. by rewrite IH.
Qed.

Lemma dirname_split (s d : string) :
  dirname s = Some d →
  ∃ base, s = (d +:+ String "/" base)%string ∧ has_slash base = false.
Proof.
  revert d; induction s as [|c r IH]; intros d; simpl; [done|].
  destruct (dirname r) as [d'|] eqn:Hr.
  - intros [= <-]. destruct (IH _ eq_refl) as (base & -> & Hbase).
    by exists base.
  - destruct (is_slash c) eqn:Hc; [|done]. intros [= <-].
    exists r. split.
    + unfold is_slash in Hc. apply Ascii.eqb_eq in Hc. by subst c.
    + clear -Hr. induction r as [|c r IH]; simpl in *; [done|].
      destruct (dirname r); [done|]. destruct (is_slash c); [done|]. auto.
Qed.

Lemma ancestors_app_no_slash (x y : string) :
  has_slash y = false → ancestors (x +:+ y) = ancestors x.
Proof.
  intros Hy. destruct x as [|c r].
  - destruct y as [|c r]; simpl in *; [done|].
    apply orb_false_elim in Hy as [_ Hr]. by rewrite cuts_no_slash.
  - rewrite append_cons. simpl.
    by rewrite cuts_app, (cuts_no_slash y), app_nil_r.
Qed.

Lemma dirname_app_no_slash (x y : string) :
  has_slash y = false → dirname (x +:+ y) = dirname x.
Proof.
  intros Hy. induction x as [|c r IH].
  - by apply dirname_no_slash.
  - rewrite append_cons. simpl. by rewrite IH.
Qed.

(** The directories SetupFileDir makes for a clean path are its
    ancestors. *)
Lemma clean_ancestors (name : string) :
  clean name = true →
  ancestors name
  = match dirname name with
    | Some d => ancestors (EnsureEndsInSlash d)
    | None => []
    end.
Proof.
  unfold clean. destruct (dirname name) as [d|] eqn:Hd.
  - intros Hclean%negb_true_iff. unfold EnsureEndsInSlash. rewrite Hclean.
    destruct (dirname_split _ _ Hd) as (base & -> & Hbase).
    destruct d as [|c r].
    + simpl. by rewrite cuts_no_slash.
    + rewrite !append_cons. simpl. rewrite !cuts_app. simpl.
      by rewrite (cuts_no_slash base).
  - intros _. destruct name as [|c r]; [done|]. simpl in *.
    destruct (dirname r) eqn:Hr; [done|].
    assert (has_slash r = false) as Hs.
    { clear -Hr. induction r as [|c r IH]; simpl in *; [done|].
      destruct (dirname r); [done|]. destruct (is_slash c); [done|]. auto. }
    by rewrite cuts_no_slash.
Qed.

Lemma ancestors_shorter (p a : string) :
  In a (ancestors p) → (String.length a < String.length p)%nat.
Proof.
  destruct p as [|c r]; simpl; [done|].
  rewrite in_map_iff. intros (a' & <- & Hin).
  apply cuts_shorter in Hin. simpl. lia.
Qed.

Section Liveness.

Context {MessageHandler : Type}.
Variable handler : MessageHandler.

Abbreviation mem := (Mem.fs (MessageHandler := MessageHandler)).

Lemma is_dir_mkdir (e : store) (d b : string) :
  Mem.is_dir e b = true → Mem.is_dir (<[d := Mem.EDir]> e) b = true.
Proof.
  unfold Mem.is_dir. destruct (decide (d = b)) as [->|Hne].
  - by rewrite lookup_insert_eq.
  - by rewrite lookup_insert_ne.
Qed.

(** Making, in order, the directories of a chain of ancestors of which
    none is a regular file succeeds, and touches nothing else. *)
Lemma make_dirs_chain (p : string) (todo : list string) :
  ∀ (made : list string) (st : Mem.state),
    ancestors p = made ++ todo →
    wf (Mem.entries st) →
    (∀ a, In a made → Mem.is_dir (Mem.entries st) a = true) →
    (∀ a, In a todo → Mem.content_of (Mem.entries st) a = None) →
    ∃ st', make_dirs mem todo handler st = (true, st')
           ∧ wf (Mem.entries st')
           ∧ (∀ a, In a (ancestors p) →
                   Mem.is_dir (Mem.entries st') a = true)
           ∧ (∀ q, ¬ In q todo →
                   Mem.entries st' !! q = Mem.entries st !! q)
           ∧ Mem.temp_counter st' = Mem.temp_counter st.
Proof.
  induction todo as [|d rest IH]; intros made st Hchain Hwf Hmade Htodo.
  - exists st. rewrite app_nil_r in Hchain. rewrite Hchain. by repeat split.
  - assert (ancestors p = (made ++ [d]) ++ rest) as Hchain'
      by by rewrite <- app_assoc.
    assert (Mem.content_of (Mem.entries st) d = None) as Hd
      by (apply Htodo; by left).
    cbn [make_dirs]. unfold bind. simpl.
    unfold Mem.Exists, Mem.exists_, Mem.content_of in *.
    destruct (Mem.entries st !! d) as [[c|]|] eqn:Hlook; [done| |]; simpl.
    + unfold Mem.IsDir, Mem.is_dir. rewrite Hlook. simpl.
      destruct (IH (made ++ [d]) st Hchain' Hwf)
        as (st' & Hrun & ? & ? & Hsame & ?).
      * intros a [Ha|[<-|[]]]%in_app_iff; [by apply Hmade|].
        unfold Mem.is_dir. by rewrite Hlook.
      * intros a Ha. apply Htodo. by right.
      * exists st'. repeat split; try done.
        intros q Hq. apply Hsame. intros Hin. apply Hq. by right.
    + unfold Mem.MakeDir, Mem.exists_. rewrite Hlook.
      assert (Mem.parent_ok (Mem.entries st) d = true) as Hparent.
      { unfold Mem.parent_ok. rewrite (ancestors_split _ _ _ _ Hchain).
        destruct (last made) as [b|] eqn:Hlast; [|done].
        apply Hmade. apply last_Some in Hlast as [l ->].
        apply in_app_iff. right. by left. }
      rewrite Hparent.
      destruct (IH (made ++ [d])
                  (Mem.commit (<[d := Mem.EDir]> (Mem.entries st)) st) Hchain')
        as (st' & Hrun & ? & ? & Hsame & ?).
      * by apply wf_insert.
      * intros a [Ha|[<-|[]]]%in_app_iff; simpl.
        -- by apply is_dir_mkdir, Hmade.
        -- unfold Mem.is_dir. by rewrite lookup_insert_eq.
      * intros a Ha. simpl.
        fold (Mem.content_of (<[d := Mem.EDir]> (Mem.entries st)) a).
        rewrite content_of_mkdir by done. apply Htodo. by right.
      * exists st'. repeat split; try done.
        intros q Hq. rewrite Hsame by (intros Hin; apply Hq; by right).
        simpl. apply lookup_insert_ne. intros ->. apply Hq. by left.
Qed.

(** SetupFileDir on a clean path none of whose ancestors is a regular
    file makes them all, and touches nothing else. *)
Lemma SetupFileDir_makes_ancestors (name : string) (st : Mem.state) :
  wf (Mem.entries st) → clean name = true →
  (∀ a, In a (ancestors name) → Mem.content_of (Mem.entries st) a = None) →
  ∃ st', SetupFileDir mem name handler st = (tt, st')
         ∧ wf (Mem.entries st')
         ∧ (∀ a, In a (ancestors name) →
                 Mem.is_dir (Mem.entries st') a = true)
         ∧ (∀ q, ¬ In q (ancestors name) →
                 Mem.entries st' !! q = Mem.entries st !! q)
         ∧ Mem.temp_counter st' = Mem.temp_counter st.
Proof.
  intros Hwf Hclean Hfree. pose proof (clean_ancestors _ Hclean) as Hanc.
  unfold SetupFileDir. destruct (dirname name) as [d|].
  - unfold RecursivelyMakeDir, bind. rewrite <- Hanc.
    destruct (make_dirs_chain name (ancestors name) [] st)
      as (st' & -> & ? & ? & ? & ?); try done.
    by exists st'.
  - exists st. rewrite Hanc. by repeat split.
Qed.

(** The second testable property: an open for output of a clean path
    that can name a file succeeds, whatever ancestors are missing. *)
Lemma OpenOutputFile_succeeds (name : string) (append : bool)
    (st : Mem.state) :
  wf (Mem.entries st) → can_hold_file (Mem.entries st) name →
  ∃ st',
    (if append then OpenOutputFileForAppend mem name handler st
     else OpenOutputFile mem name handler st)
    = (Some {| out_filename := name |}, st').
Proof.
  intros Hwf (Hclean & Hfree & Hfile).
  destruct (SetupFileDir_makes_ancestors name st Hwf Hclean Hfree)
    as (st1 & Hsetup & Hwf1 & Hdirs & Hsame & _).
  assert (∃ st', OpenOutputFileHelper mem name append handler st1
                 = (Some {| out_filename := name |}, st')) as [st' Hopen].
  { simpl. unfold Mem.OpenOutputFileHelper.
    assert (Mem.parent_ok (Mem.entries st1) name = true) as ->.
    { unfold Mem.parent_ok. destruct (last (ancestors name)) as [a|] eqn:Hl;
        [|done].
      apply Hdirs. apply last_Some in Hl as [l ->].
      apply in_app_iff. right. by left. }
    rewrite Hsame by (intros Hin; by apply ancestors_ne in Hin).
    unfold Mem.is_dir in Hfile.
    destruct (Mem.entries st !! name) as [[c|]|]; [|done|]; eauto. }
  exists st'. unfold OpenOutputFileForAppend, OpenOutputFile, bind.
  rewrite Hsetup. by destruct append.
Qed.

End Liveness.


(** ** Opening for output *)

Lemma opened_has_ancestors (e : store) (p : string) (v : Mem.entry) :
  wf e → Mem.parent_ok e p = true →
  ∀ a, In a (ancestors p) → Mem.is_dir (<[p := v]> e) a = true.
Proof.
  intros Hwf Hp a Ha. rewrite is_dir_insert_ne by by apply ancestors_ne.
  by apply (wf_ancestors e p).
Qed.

Lemma OpenOutputFileHelper_ancestors {MessageHandler : Type}
    (handler : MessageHandler) (name : string) (append : bool)
    (st st' : Mem.state) (out : OutputFile) :
  wf (Mem.entries st) →
  Mem.OpenOutputFileHelper name append handler st = (Some out, st') →
  ∀ a, In a (ancestors (out_filename out)) →
       Mem.is_dir (Mem.entries st') a = true.
Proof.
  intros Hwf Hopen. unfold Mem.OpenOutputFileHelper in Hopen.
  destruct (Mem.parent_ok (Mem.entries st) name) eqn:Hp; [|done].
  destruct (Mem.entries st !! name) as [[c|]|]; [| done |].
  - injection Hopen as <- <-. destruct append; simpl.
    + by apply wf_ancestors.
    + by apply opened_has_ancestors.
  - injection Hopen as <- <-. simpl. by apply opened_has_ancestors.
Qed.

Lemma OpenTempFileHelper_ancestors {MessageHandler : Type}
    (handler : MessageHandler) (prefix_name : string)
    (st st' : Mem.state) (out : OutputFile) :
  wf (Mem.entries st) →
  Mem.OpenTempFileHelper prefix_name handler st = (Some out, st') →
  ∀ a, In a (ancestors (out_filename out)) →
       Mem.is_dir (Mem.entries st') a = true.
Proof.
  intros Hwf Hopen. unfold Mem.OpenTempFileHelper in Hopen.
  destruct (Mem.parent_ok _ _) eqn:Hp; [|done].
  destruct (negb _); [|done].
  injection Hopen as <- <-. simpl. by apply opened_has_ancestors.
Qed.

(** C8. Each of OpenOutputFile, OpenOutputFileForAppend and OpenTempFile
    runs SetupFileDir first and hands the state it leaves to the
    backend's open helper; on the reference backend, when such an open
    returns a file, every ancestor directory of that file's path exists
    afterwards; and an open for output of a path that can hold a file
    does return one, whatever ancestors were missing. *)
Theorem open_sets_up_parent_directories :
  (∀ (S MessageHandler : Type) (fs : FileSystem S MessageHandler)
     (name : string) (handler : MessageHandler) (st : S),
     OpenOutputFile fs name handler st
     = OpenOutputFileHelper fs name false handler
         (SetupFileDir fs name handler st).2
     ∧ OpenOutputFileForAppend fs name handler st
       = OpenOutputFileHelper fs name true handler
           (SetupFileDir fs name handler st).2
     ∧ OpenTempFile fs name handler st
       = OpenTempFileHelper fs name handler
           (SetupFileDir fs name handler st).2)
  ∧ (∀ (MessageHandler : Type) (handler : MessageHandler)
       (name : string) (st st' : Mem.state) (out : OutputFile),
       wf (Mem.entries st) →
       OpenOutputFile Mem.fs name handler st = (Some out, st')
       ∨ OpenOutputFileForAppend Mem.fs name handler st = (Some out, st')
       ∨ OpenTempFile Mem.fs name handler st = (Some out, st') →
       ∀ a, In a (ancestors (out_filename out)) →
            Mem.is_dir (Mem.entries st') a = true)
  ∧ (∀ (MessageHandler : Type) (handler : MessageHandler)
       (name : string) (append : bool) (st : Mem.state),
       wf (Mem.entries st) → can_hold_file (Mem.entries st) name →
       ∃ st', (if append
               then OpenOutputFileForAppend Mem.fs name handler st
               else OpenOutputFile Mem.fs name handler st)
              = (Some {| out_filename := name |}, st')).
Proof.
  split; [|split].
  - intros S MessageHandler fs name handler st.
    unfold OpenOutputFile, OpenOutputFileForAppend, OpenTempFile, bind.
    by destruct (SetupFileDir fs name handler st).
  - intros MessageHandler handler name st st' out Hwf Hopen.
    unfold OpenOutputFile, OpenOutputFileForAppend, OpenTempFile, bind
      in Hopen.
    destruct (SetupFileDir Mem.fs name handler st) as [[] st1] eqn:Hsetup.
    assert (wf (Mem.entries st1)) as Hwf1.
    { by apply (preserves_SetupFileDir handler wf wf_dir_closed name
                  _ _ _ Hsetup). }
    destruct Hopen as [Hopen|[Hopen|Hopen]]; simpl in Hopen.
    + by apply (OpenOutputFileHelper_ancestors handler name false st1).
    + by apply (OpenOutputFileHelper_ancestors handler name true st1).
    + by apply (OpenTempFileHelper_ancestors handler name st1).
  - intros MessageHandler handler name append st.
    apply OpenOutputFile_succeeds.
Qed.

Lemma open_sets_up_parent_directories_witness :
  opened_deep.1 = Some {| out_filename := "a/b/c.txt" |}
  ∧ Mem.is_dir (Mem.entries Mem.empty) "a/b" = false
  ∧ Mem.is_dir (Mem.entries opened_deep.2) "a" = true
  ∧ Mem.is_dir (Mem.entries opened_deep.2) "a/b" = true.
Proof.
  split; [reflexivity|]. split; [reflexivity|].
  pose proof (proj1 (proj2 open_sets_up_parent_directories) unit tt
                "a/b/c.txt" Mem.empty opened_deep.2
                {| out_filename := "a/b/c.txt" |}
                wf_empty (or_introl eq_refl)) as Hdirs.
  split; apply Hdirs; simpl; auto.
Defined.

(** ** Atomic writes *)

Lemma preserves_bind_returns {A B} (Q : store → Prop) (R : A → Prop)
    (m : M Mem.state A) (k : A → M Mem.state B) :
  preserves Q m → returns R m → (∀ a, R a → preserves Q (k a)) →
  preserves Q (bind m k).
Proof.
  intros Hm HR Hk st b st' Hrun HQ. unfold bind in Hrun.
  destruct (m st) as [a st1] eqn:Hm1.
  destruct (Hm _ _ _ Hm1 HQ) as [HQ1 Hext1].
  destruct (Hk a (HR _ _ _ Hm1) _ _ _ Hrun HQ1) as [HQ2 Hext2].
  split; [done|]. by eapply extends_trans.
Qed.

Section Steps.

Context {MessageHandler : Type}.
Variable handler : MessageHandler.
Variable Q : store → Prop.

Lemma preserves_write_bytes (t : string) (buf : bytes) :
  blind_to t Q → preserves Q (Mem.write_bytes t buf).
Proof.
  intros Hblind. induction buf as [|b rest IH]; simpl.
  - intros st a st' [= <- <-] HQ. split; [done|apply extends_refl].
  - intros st a st' Hrun HQ.
    destruct (Mem.entries st !! t) as [[c|]|];
      try (injection Hrun as <- <-; split; [done|apply extends_refl]).
    assert (Q (<[t := Mem.EFile (c ++ [b])]> (Mem.entries st))) as HQ1
      by by apply Hblind.
    destruct (IH _ _ _ Hrun HQ1) as [HQ2 Hext]. split; [done|].
    eapply extends_trans; [|exact Hext]. by apply extends_commit.
Qed.

Lemma preserves_RemoveFile (t : string) :
  blind_to t Q → preserves Q (Mem.RemoveFile t handler).
Proof.
  intros Hblind st a st' Hrun HQ. unfold Mem.RemoveFile in Hrun.
  destruct (Mem.entries st !! t) as [[c|]|];
    try (injection Hrun as <- <-; split; [done|apply extends_refl]).
  injection Hrun as <- <-. simpl.
  assert (Q (delete t (Mem.entries st))) by by apply Hblind.
  split; [done|]. by apply extends_commit.
Qed.

Lemma preserves_OpenTempFileHelper (prefix_name : string) :
  (∀ n, blind_to (prefix_name +:+ Mem.temp_suffix n) Q) →
  preserves Q (Mem.OpenTempFileHelper prefix_name handler).
Proof.
  intros Hblind st a st' Hrun HQ. unfold Mem.OpenTempFileHelper in Hrun.
  destruct (_ && _).
  - injection Hrun as <- <-. simpl.
    assert (Q (<[(prefix_name +:+ Mem.temp_suffix (Mem.temp_counter st))%string
                 := Mem.EFile []]> (Mem.entries st))) by by apply Hblind.
    split; [done|]. by apply extends_next_temp, extends_commit.
  - injection Hrun as <- <-. split; [done|].
    apply extends_next_temp, extends_refl.
Qed.

Lemma returns_OpenTempFile (prefix_name : string) :
  returns (λ o, ∀ f, o = Some f →
                     ∃ n, out_filename f = (prefix_name +:+ Mem.temp_suffix n)%string)
          (OpenTempFile Mem.fs prefix_name handler).
Proof.
  intros st o st' Hrun f ->. unfold OpenTempFile, bind in Hrun.
  destruct (SetupFileDir _ _ _ _) as [[] st1]. simpl in Hrun.
  unfold Mem.OpenTempFileHelper in Hrun.
  destruct (_ && _); [|done]. injection Hrun as <- _. eauto.
Qed.

(** Writing a temporary file under [prefix_name] never shows in a
    property that is blind to the temporary names. *)
Lemma preserves_WriteTempFile (prefix_name : string) (buffer : bytes) :
  dir_closed Q →
  (∀ n, blind_to (prefix_name +:+ Mem.temp_suffix n) Q) →
  preserves Q (WriteTempFile Mem.fs prefix_name buffer handler).
Proof.
  intros Hdir Hblind. unfold WriteTempFile.
  eapply preserves_bind_returns; [|apply returns_OpenTempFile|].
  { unfold OpenTempFile. apply preserves_bind.
    - by apply preserves_SetupFileDir.
    - intros _. by apply preserves_OpenTempFileHelper. }
  intros [f|] Hname; [|apply preserves_ret].
  destruct (Hname f eq_refl) as [n Hn].
  apply preserves_bind.
  { simpl. unfold Mem.OutputFile_Write. rewrite Hn.
    by apply preserves_write_bytes. }
  intros written. apply preserves_bind; [by apply preserves_pure|].
  intros closed. destruct (written && closed); [apply preserves_ret|].
  apply preserves_bind; [|intros _; apply preserves_ret].
  simpl. rewrite Hn. by apply preserves_RemoveFile.
Qed.

End Steps.

Lemma write_bytes_content (t : string) (buf c : bytes) (st : Mem.state) :
  Mem.entries st !! t = Some (Mem.EFile c) →
  ∃ st', Mem.write_bytes t buf st = (true, st')
         ∧ Mem.entries st' = <[t := Mem.EFile (c ++ buf)]> (Mem.entries st)
         ∧ Mem.temp_counter st' = Mem.temp_counter st.
Proof.
  revert c st; induction buf as [|b rest IH]; intros c st Hc; simpl.
  - exists st. rewrite app_nil_r. by rewrite insert_id.
  - rewrite Hc.
    destruct (IH (c ++ [b])
                (Mem.commit (<[t := Mem.EFile (c ++ [b])]> (Mem.entries st)) st))
      as (st' & Hrun & Hst' & Hn); [apply lookup_insert_eq|].
    exists st'. split; [done|].
    rewrite Hst', Hn. simpl. by rewrite insert_insert_eq, <- app_assoc.
Qed.

Lemma WriteTempFile_content {MessageHandler : Type} (handler : MessageHandler)
    (prefix_name temp : string) (buffer : bytes) (st st' : Mem.state) :
  WriteTempFile Mem.fs prefix_name buffer handler st = ((true, temp), st') →
  Mem.content_of (Mem.entries st') temp = Some buffer.
Proof.
  unfold WriteTempFile, OpenTempFile, bind.
  destruct (SetupFileDir _ _ _ _) as [[] st1]. simpl.
  unfold Mem.OpenTempFileHelper. destruct (_ && _); [|done]. simpl.
  unfold Mem.OutputFile_Write; simpl.
  set (name := (prefix_name +:+ Mem.temp_suffix (Mem.temp_counter st1))%string).
  set (st2 := Mem.next_temp _).
  destruct (write_bytes_content name buffer [] st2) as (st3 & -> & Hc & _).
  { apply lookup_insert_eq. }
  simpl. intros [= <- <-]. unfold Mem.content_of.
  by rewrite Hc, lookup_insert_eq.
Qed.

Lemma temp_suffix_no_slash (n : nat) : has_slash (Mem.temp_suffix n) = false.
Proof. induction n as [|n IH]; simpl; [done|exact IH]. Qed.

Lemma last_in {A} (l : list A) (x : A) : last l = Some x → In x l.
Proof.
  intros [l' ->]%last_Some. apply in_app_iff. right. by left.
Qed.

(** An atomic write to a path that can hold a file succeeds, when the
    temporary name the backend is about to hand out is free. *)
Lemma WriteFileAtomic_succeeds {MessageHandler : Type}
    (handler : MessageHandler) (name : string) (buffer : bytes)
    (st : Mem.state) :
  wf (Mem.entries st) → can_hold_file (Mem.entries st) name →
  Mem.entries st
    !! ((name +:+ ".temp") +:+ Mem.temp_suffix (Mem.temp_counter st))%string
  = None →
  (WriteFileAtomic Mem.fs name buffer handler st).1 = true.
Proof.
  intros Hwf (Hclean & Hfree & Hfile) Hfresh.
  set (P := (name +:+ ".temp")%string) in *.
  set (T := (P +:+ Mem.temp_suffix (Mem.temp_counter st))%string) in *.
  assert (ancestors P = ancestors name) as HancP
    by by apply ancestors_app_no_slash.
  assert (ancestors T = ancestors name) as HancT.
  { unfold T. by rewrite ancestors_app_no_slash by apply temp_suffix_no_slash. }
  assert (clean P = true) as HcleanP.
  { unfold clean, P. by rewrite dirname_app_no_slash. }
  assert (¬ In T (ancestors name)) as HTnot.
  { rewrite <- HancT. intros Hin. by apply ancestors_ne in Hin. }
  assert (¬ In name (ancestors name)) as Hnnot.
  { intros Hin. by apply ancestors_ne in Hin. }
  assert (T ≠ name) as HTne by apply temp_name_ne.
  destruct (SetupFileDir_makes_ancestors handler P st Hwf HcleanP)
    as (st1 & Hsetup1 & Hwf1 & Hdirs1 & Hsame1 & Hn1).
  { by rewrite HancP. }
  rewrite HancP in Hdirs1, Hsame1.
  assert (Mem.parent_ok (Mem.entries st1) T = true) as HparentT.
  { unfold Mem.parent_ok. rewrite HancT.
    destruct (last (ancestors name)) as [a|] eqn:Hl; [|done].
    by apply Hdirs1, last_in. }
  assert (Mem.entries st1 !! T = None) as HfreshT by by rewrite Hsame1.
  unfold WriteFileAtomic, WriteTempFile, OpenTempFile, bind.
  fold P. rewrite Hsetup1. simpl.
  unfold Mem.OpenTempFileHelper. rewrite Hn1. fold T.
  rewrite HparentT. unfold Mem.exists_ at 1. rewrite HfreshT. simpl.
  unfold Mem.OutputFile_Write. simpl.
  set (st2 := Mem.next_temp _).
  destruct (write_bytes_content T buffer [] st2) as (st3 & -> & He3 & _).
  { apply lookup_insert_eq. }
  simpl in He3. rewrite insert_insert_eq in He3. simpl.
  unfold RenameFile, bind.
  destruct (SetupFileDir_makes_ancestors handler name st3)
    as (st4 & -> & Hwf4 & Hdirs4 & Hsame4 & _).
  - rewrite He3. apply wf_insert; [done|done|].
    unfold Mem.is_dir. by rewrite HfreshT.
  - done.
  - intros a Ha. rewrite He3. unfold Mem.content_of.
    rewrite lookup_insert_ne by (intros <-; by apply HTnot).
    specialize (Hdirs1 a Ha). unfold Mem.is_dir in Hdirs1.
    by destruct (Mem.entries st1 !! a) as [[]|].
  - simpl. unfold Mem.RenameFileHelper.
    rewrite (Hsame4 T HTnot), He3, lookup_insert_eq.
    assert (Mem.parent_ok (Mem.entries st4) name = true) as ->.
    { unfold Mem.parent_ok.
      destruct (last (ancestors name)) as [a|] eqn:Hl; [|done].
      by apply Hdirs4, last_in. }
    assert (Mem.is_dir (Mem.entries st4) name = false) as ->; [|done].
    unfold Mem.is_dir in *.
    by rewrite (Hsame4 name Hnnot), He3, lookup_insert_ne, (Hsame1 name Hnnot).
Qed.

(** During an atomic write the target holds what it held before or the
    whole new content, at every content the store goes through; after
    one that reports success it holds the new content. *)
Lemma WriteFileAtomic_contents {MessageHandler : Type}
    (handler : MessageHandler) (st : Mem.state) (name : string)
    (buffer : bytes) :
  let old := Mem.content_of (Mem.entries st) name in
  let written := WriteFileAtomic Mem.fs name buffer handler st in
  (written.1 = true →
   Mem.content_of (Mem.entries written.2) name = Some buffer)
  ∧ extends (λ e, Mem.content_of e name = old
                  ∨ Mem.content_of e name = Some buffer) st written.2.
Proof.
  intros old written.
  subst written. unfold WriteFileAtomic, bind.
  destruct (WriteTempFile _ _ _ _ _) as [[ok temp] st1] eqn:Htemp.
  assert (Mem.content_of (Mem.entries st1) name = old
          ∧ extends (λ e, Mem.content_of e name = old) st st1)
    as [Hold1 Hext1].
  { apply (preserves_WriteTempFile handler
             (λ e, Mem.content_of e name = old) (name +:+ ".temp") buffer
             ) with (st := st) (a := (ok, temp)); [| |done|done].
    - intros e d He Hd _. by rewrite content_of_mkdir.
    - intros n. apply content_of_blind, temp_name_ne. }
  assert (extends (λ e, Mem.content_of e name = old
                        ∨ Mem.content_of e name = Some buffer) st st1)
    as Hboth1 by (eapply extends_weaken; [|exact Hext1]; auto).
  simpl. destruct ok; [|by split].
  apply WriteTempFile_content in Htemp.
  unfold RenameFile, bind.
  destruct (SetupFileDir _ _ _ _) as [[] st2] eqn:Hsetup.
  assert ((Mem.content_of (Mem.entries st2) name = old
           ∧ Mem.content_of (Mem.entries st2) temp = Some buffer)
          ∧ extends (λ e, Mem.content_of e name = old
                          ∧ Mem.content_of e temp = Some buffer) st1 st2)
    as [[Hold2 Htemp2] Hext2].
  { apply (preserves_SetupFileDir handler
             (λ e, Mem.content_of e name = old
                   ∧ Mem.content_of e temp = Some buffer))
      with (name := name) (a := tt); [|done|done].
    intros e d [??] Hd _. by rewrite !content_of_mkdir. }
  assert (extends (λ e, Mem.content_of e name = old
                        ∨ Mem.content_of e name = Some buffer) st st2)
    as Hboth2.
  { eapply extends_trans; [exact Hboth1|].
    eapply extends_weaken; [|exact Hext2]. intros e [??]; auto. }
  simpl. unfold Mem.RenameFileHelper.
  unfold Mem.content_of in Htemp2.
  destruct (Mem.entries st2 !! temp) as [[c|]|]; try done.
  injection Htemp2 as ->.
  destruct (_ && _); simpl; [|by split].
  assert (Mem.content_of
            (<[name := Mem.EFile buffer]> (delete temp (Mem.entries st2))) name
          = Some buffer) as Hnew.
  { unfold Mem.content_of. by rewrite lookup_insert_eq. }
  split; [done|].
  eapply extends_trans; [exact Hboth2|]. apply extends_commit. by right.
Qed.

(** C1. On the reference backend, a WriteFileAtomic of [buffer] to
    [name] succeeds whenever [name] can hold a file and the temporary
    name is free; when it reports success, a read of [name] that follows
    yields exactly [buffer]; and whether it succeeds or not, a reader
    that opens [name] at any content the store goes through during the
    call reads what a reader got before the call or the whole of
    [buffer], never anything else. *)
Theorem WriteFileAtomic_old_or_new {MessageHandler : Type}
    (handler : MessageHandler) (st : Mem.state) (name : string)
    (buffer : bytes) :
  let old := (ReadFile Mem.fs name kUnlimitedSize handler st).1 in
  let written := WriteFileAtomic Mem.fs name buffer handler st in
  (wf (Mem.entries st) → can_hold_file (Mem.entries st) name →
   Mem.entries st
     !! ((name +:+ ".temp") +:+ Mem.temp_suffix (Mem.temp_counter st))%string
   = None →
   written.1 = true)
  ∧ (written.1 = true →
     ReadFile Mem.fs name kUnlimitedSize handler written.2
     = (Some buffer, written.2))
  ∧ extends (λ e, ∀ reader : Mem.state,
                    Mem.entries reader = e →
                    let seen :=
                      (ReadFile Mem.fs name kUnlimitedSize handler reader).1 in
                    seen = old ∨ seen = Some buffer) st written.2.
Proof.
  intros old written. subst old.
  destruct (WriteFileAtomic_contents handler st name buffer)
    as [Hafter Hduring].
  split; [by apply WriteFileAtomic_succeeds|]. split.
  - intros Hok. by apply ReadFile_unlimited, Hafter.
  - eapply extends_weaken; [|exact Hduring].
    intros e He reader <-. rewrite !ReadFile_unlimited_content. exact He.
Qed.

(** ** Directory aggregation *)

Lemma int64_wrap_range (z : Z) : in_int64 (int64_wrap z).
Proof.
  unfold in_int64, int64_wrap.
  pose proof (Z.mod_pos_bound (z + 2 ^ 63) (2 ^ 64) ltac:(lia)). lia.
Qed.

Lemma int64_wrap_id (z : Z) : in_int64 z → int64_wrap z = z.
Proof.
  unfold in_int64, int64_wrap. intros Hz.
  rewrite Z.mod_small by lia. lia.
Qed.

Lemma int64_wrap_add (a b : Z) :
  int64_wrap (int64_wrap a + b) = int64_wrap (a + b).
Proof.
  unfold int64_wrap. f_equal.
  replace ((a + 2 ^ 63) mod 2 ^ 64 - 2 ^ 63 + b + 2 ^ 63)
    with ((a + 2 ^ 63) mod 2 ^ 64 + b) by lia.
  rewrite Zplus_mod_idemp_l. f_equal. lia.
Qed.

Lemma sum_sizes_app (l1 l2 : list FileInfo) :
  sum_sizes (l1 ++ l2) = sum_sizes l1 + sum_sizes l2.
Proof. induction l1 as [|x l1 IH]; simpl; [done|]. rewrite IH. lia. Qed.

Lemma added_int64_ok (di : DirInfo) (fs : list FileInfo)
    (ds : list string) (k : nat) :
  int64_ok (added di fs ds k).
Proof. split; apply int64_wrap_range. Qed.

Lemma added_added (di : DirInfo) (fs1 fs2 : list FileInfo)
    (ds1 ds2 : list string) (k1 k2 : nat) :
  added (added di fs1 ds1 k1) fs2 ds2 k2
  = added di (fs1 ++ fs2) (ds1 ++ ds2) (k1 + k2).
Proof.
  unfold added; simpl.
  rewrite !int64_wrap_add, sum_sizes_app, !app_assoc. f_equal; f_equal; lia.
Qed.

Lemma added_nothing (di : DirInfo) :
  int64_ok di → added di [] [] 0 = di.
Proof.
  intros [Hsize Hcount]. destruct di. unfold added; simpl in *.
  rewrite !app_nil_r, !Z.add_0_r, !int64_wrap_id by done. done.
Qed.

Lemma below_count_entry_count (n : node) : below_count n = entry_count n.
Proof.
  induction n as [|listing IH] using node_induction; simpl; [done|].
  induction IH as [|e l He _ IHl]; simpl; [done|].
  rewrite <- IHl, He. lia.
Qed.

Lemma sum_sizes_node_files (n : node) :
  ∀ path, sum_sizes (node_files path n) = node_size n.
Proof.
  induction n as [size atime|listing IH] using node_induction;
    intros path; simpl; [lia|].
  induction IH as [|e l He _ IHl]; simpl; [done|].
  by rewrite sum_sizes_app, He, IHl.
Qed.

(** The walk adds to the record what the node holds, and nothing else. *)
Lemma visit_added (n : node) :
  ∀ path di,
    int64_ok di →
    visit path n di
    = added di (node_files path n) (node_empty_dirs path n) (below_count n).
Proof.
  induction n as [size atime|listing IH] using node_induction;
    intros path di Hok.
  - destruct Hok as [Hsize Hcount].
    simpl. unfold added, add_file; simpl.
    rewrite app_nil_r, !Z.add_0_r, (int64_wrap_id (inode_count di)) by done.
    done.
  - assert (∀ acc,
      int64_ok acc →
      fold_left (λ acc e, visit (join path e.1) e.2 acc) listing acc
      = added acc
          (flat_map (λ e, node_files (join path e.1) e.2) listing)
          (flat_map (λ e, node_empty_dirs (join path e.1) e.2) listing)
          (fold_right (λ e k, below_count e.2 + k) 0 listing)%nat) as Hfold.
    { induction IH as [|e l He _ IHl]; intros acc Hacc; simpl.
      - by rewrite added_nothing.
      - rewrite He by done. rewrite IHl by apply added_int64_ok.
        by rewrite added_added. }
    assert (∀ k, add_inodes k di = added di [] [] k) as Hcounted.
    { intros k. destruct Hok as [Hsize Hcount].
      unfold added, add_inodes; simpl.
      by rewrite !app_nil_r, Z.add_0_r, (int64_wrap_id (size_bytes di)). }
    destruct listing as [|e l].
    + simpl. rewrite Hcounted. unfold added, add_empty_dir; simpl.
      by rewrite !app_nil_r.
    + cbn [visit]. rewrite Hcounted.
      rewrite Hfold by apply added_int64_ok.
      by rewrite added_added.
Qed.

Lemma node_files_complete (p q : string) (n m : node) :
  at_path p n q m →
  ∀ size atime, m = Regular size atime →
    In {| fi_size_bytes := size; fi_atime_sec := atime; fi_name := q |}
       (node_files p n).
Proof.
  induction 1 as [p n|p listing name child q m Hin _ IH];
    intros size atime Hm.
  - subst n. by left.
  - simpl. apply in_flat_map. exists (name, child). split; [done|].
    by apply IH.
Qed.

Lemma node_files_sound (n : node) :
  ∀ p info, In info (node_files p n) →
    at_path p n (fi_name info)
      (Regular (fi_size_bytes info) (fi_atime_sec info)).
Proof.
  induction n as [size atime|listing IH] using node_induction;
    intros p info; simpl.
  - intros [<-|[]]. apply at_here.
  - rewrite in_flat_map. intros ([name child] & Hin & Hinfo).
    rewrite List.Forall_forall in IH.
    apply (at_below _ _ name child); [done|]. by apply (IH _ Hin).
Qed.

Lemma node_empty_dirs_complete (p q : string) (n m : node) :
  at_path p n q m → m = Directory [] → In q (node_empty_dirs p n).
Proof.
  induction 1 as [p n|p listing name child q m Hin _ IH]; intros Hm.
  - subst n. by left.
  - destruct listing as [|e l]; [done|].
    cbn [node_empty_dirs]. apply in_flat_map.
    exists (name, child). split; [done|]. by apply IH.
Qed.

Lemma node_empty_dirs_sound (n : node) :
  ∀ p q, In q (node_empty_dirs p n) → at_path p n q (Directory []).
Proof.
  induction n as [size atime|listing IH] using node_induction;
    intros p q; simpl; [done|].
  destruct listing as [|e l].
  - intros [<-|[]]. apply at_here.
  - rewrite in_flat_map. intros ([name child] & Hin & Hq).
    rewrite List.Forall_forall in IH.
    apply (at_below _ _ name child); [done|]. by apply (IH _ Hin).
Qed.

Lemma node_empty_dirs_under (n : node) :
  ∀ p q, In q (node_empty_dirs p n) →
         ∃ r, q = (p +:+ r)%string ∧ tail_ok r.
Proof.
  induction n as [size atime|listing IH] using node_induction;
    intros p q; simpl; [done|].
  destruct listing as [|e l].
  - intros [<-|[]]. exists EmptyString. split; [|done].
    clear. induction p as [|c p IHp]; [done|].
    change (String c p = String c (p +:+ "")). by rewrite <- IHp.
  - rewrite in_flat_map. intros ([name child] & Hin & Hq).
    rewrite List.Forall_forall in IH.
    destruct (IH _ Hin _ _ Hq) as (r & -> & Hr).
    exists (String "/" (name +:+ r)). split; [|done].
    unfold join; simpl. rewrite string_app_assoc. done.
Qed.

Lemma name_prefix_inj (n1 n2 r1 r2 : string) :
  has_slash n1 = false → has_slash n2 = false →
  tail_ok r1 → tail_ok r2 →
  (n1 +:+ r1)%string = (n2 +:+ r2)%string → n1 = n2.
Proof.
  revert n2; induction n1 as [|c1 n1 IH]; intros [|c2 n2]; simpl;
    intros H1 H2 Hr1 Hr2 Heq.
  - done.
  - change (r1 = String c2 (n2 +:+ r2)) in Heq. subst r1. simpl in Hr1.
    rewrite Hr1 in H2. done.
  - change (String c1 (n1 +:+ r1) = r2) in Heq. subst r2. simpl in Hr2.
    rewrite Hr2 in H1. done.
  - change (String c1 (n1 +:+ r1) = String c2 (n2 +:+ r2)) in Heq.
    injection Heq as -> Heq.
    apply orb_false_elim in H1 as [_ H1].
    apply orb_false_elim in H2 as [_ H2].
    f_equal. by apply IH.
Qed.

(** Two entries of one directory with different names hold no path in
    common. *)
Lemma join_under_disjoint (p n1 n2 r1 r2 : string) :
  has_slash n1 = false → has_slash n2 = false → n1 ≠ n2 →
  tail_ok r1 → tail_ok r2 →
  (join p n1 +:+ r1)%string ≠ (join p n2 +:+ r2)%string.
Proof.
  intros H1 H2 Hne Hr1 Hr2 Heq. apply Hne. unfold join in Heq.
  rewrite !string_app_assoc in Heq. apply String.app_inj in Heq.
  change (String "/" (n1 +:+ r1) = String "/" (n2 +:+ r2)) in Heq.
  injection Heq as Heq. by apply (name_prefix_inj n1 n2 r1 r2).
Qed.

Lemma distinct_NoDup (l : list string) : distinct l = true → List.NoDup l.
Proof.
  induction l as [|x r IH]; simpl; [constructor|].
  intros [Hx Hr]%andb_prop. constructor; [|by apply IH].
  intros Hin. apply negb_true_iff in Hx.
  assert (existsb (String.eqb x) r = true) as Hex; [|congruence].
  apply existsb_exists. exists x. split; [done|]. by apply String.eqb_eq.
Qed.

Lemma node_empty_dirs_NoDup (n : node) :
  ∀ p, well_formed n = true → List.NoDup (node_empty_dirs p n).
Proof.
  induction n as [size atime|listing IH] using node_induction;
    intros p Hwf; [constructor|].
  simpl in Hwf. apply andb_prop in Hwf as [Hnames Hentries].
  apply distinct_NoDup in Hnames.
  assert (List.NoDup
            (flat_map (λ e, node_empty_dirs (join p e.1) e.2) listing))
    as Hflat.
  { induction IH as [|[name child] l He _ IHl]; simpl; [constructor|].
    simpl in Hentries, Hnames.
    apply andb_prop in Hentries as [[Hname Hchild]%andb_prop Hrest].
    apply negb_true_iff in Hname.
    apply List.NoDup_cons_iff in Hnames as [Hfresh Hnames].
    apply List.NoDup_app; [by apply He|by apply IHl|].
    intros q Hq1 Hq2.
    apply in_flat_map in Hq2 as ([name2 child2] & Hin2 & Hq2).
    apply node_empty_dirs_under in Hq1 as (r1 & -> & Hr1).
    apply node_empty_dirs_under in Hq2 as (r2 & Heq & Hr2).
    simpl in Heq. revert Heq. apply join_under_disjoint; try done.
    - rewrite forallb_forall in Hrest. specialize (Hrest _ Hin2).
      simpl in Hrest. apply andb_prop in Hrest as [Hn2 _].
      by apply negb_true_iff in Hn2.
    - intros ->. apply Hfresh. apply in_map_iff.
      by exists (name2, child2). }
  destruct listing; [|done].
  simpl. constructor; [intros []|constructor].
Qed.

Lemma node_files_under (n : node) :
  ∀ p info, In info (node_files p n) →
            ∃ r, fi_name info = (p +:+ r)%string ∧ tail_ok r.
Proof.
  induction n as [size atime|listing IH] using node_induction;
    intros p info; simpl.
  - intros [<-|[]]. exists EmptyString. split; [|done]. simpl.
    clear. induction p as [|c p IHp]; [done|].
    change (String c p = String c (p +:+ "")). by rewrite <- IHp.
  - rewrite in_flat_map. intros ([name child] & Hin & Hinfo).
    rewrite List.Forall_forall in IH.
    destruct (IH _ Hin _ _ Hinfo) as (r & -> & Hr).
    exists (String "/" (name +:+ r)). split; [|done].
    unfold join; simpl. by rewrite string_app_assoc.
Qed.

Lemma node_files_names_NoDup (n : node) :
  ∀ p, well_formed n = true → List.NoDup (map fi_name (node_files p n)).
Proof.
  induction n as [size atime|listing IH] using node_induction;
    intros p Hwf; simpl.
  { constructor; [intros []|constructor]. }
  simpl in Hwf. apply andb_prop in Hwf as [Hnames Hentries].
  apply distinct_NoDup in Hnames.
  induction IH as [|[name child] l He _ IHl]; simpl; [constructor|].
  simpl in Hentries, Hnames.
  apply andb_prop in Hentries as [[Hname Hchild]%andb_prop Hrest].
  apply negb_true_iff in Hname.
  apply List.NoDup_cons_iff in Hnames as [Hfresh Hnames].
  rewrite map_app.
  apply List.NoDup_app; [by apply He|by apply IHl|].
  intros q Hq1 Hq2.
  apply in_map_iff in Hq1 as (info1 & <- & Hq1).
  apply in_map_iff in Hq2 as (info2 & Heq & Hq2).
  apply in_flat_map in Hq2 as ([name2 child2] & Hin2 & Hq2).
  apply node_files_under in Hq1 as (r1 & Hn1 & Hr1).
  apply node_files_under in Hq2 as (r2 & Hn2 & Hr2).
  simpl in Hn2. rewrite Hn1, Hn2 in Heq. symmetry in Heq.
  revert Heq. apply join_under_disjoint; try done.
  - rewrite forallb_forall in Hrest. specialize (Hrest _ Hin2).
    simpl in Hrest. apply andb_prop in Hrest as [Hn _].
    by apply negb_true_iff in Hn.
  - intros ->. apply Hfresh. apply in_map_iff.
    by exists (name2, child2).
Qed.

(** C6. GetDirInfo puts into the record the metadata of every regular
    file under the root, each once and nothing else; a size_bytes that is
    the sum of those files' sizes and an inode_count that is the number
    of entries in the tree, as an int64 holds them (the very numbers
    whenever they fit); and the full path of every empty directory and
    of nothing else, once each when the tree is a well-formed one.  A
    directory with files of 10, 20 and 30 bytes and one empty subdirectory
    gives 60 bytes, 4 entries and the subdirectory's path. *)
Theorem GetDirInfo_aggregates (path : string)
    (listing : list (string * node)) :
  let root := Directory listing in
  let di := GetDirInfo path listing in
  files di = node_files path root
  ∧ (∀ q size atime,
       at_path path root q (Regular size atime)
       ↔ In {| fi_size_bytes := size; fi_atime_sec := atime; fi_name := q |}
            (files di))
  ∧ (well_formed root = true →
     ∀ q size atime, at_path path root q (Regular size atime) →
       count_occ string_dec (map fi_name (files di)) q = 1%nat)
  ∧ size_bytes di = int64_wrap (node_size root)
  ∧ (in_int64 (node_size root) →
     size_bytes di = node_size root ∧ size_bytes di = sum_sizes (files di))
  ∧ inode_count di = int64_wrap (Z.of_nat (entry_count root))
  ∧ (in_int64 (Z.of_nat (entry_count root)) →
     inode_count di = Z.of_nat (entry_count root))
  ∧ empty_dirs di = node_empty_dirs path root
  ∧ (∀ q, at_path path root q (Directory []) ↔ In q (empty_dirs di))
  ∧ (well_formed root = true →
     ∀ q, at_path path root q (Directory []) →
          count_occ string_dec (empty_dirs di) q = 1%nat)
  ∧ (∀ n1 n2 n3 n4 a1 a2 a3,
       let di := GetDirInfo path [(n1, Regular 10 a1); (n2, Regular 20 a2);
                                  (n3, Regular 30 a3); (n4, Directory [])] in
       size_bytes di = 60 ∧ inode_count di = 4
       ∧ empty_dirs di = [join path n4]).
Proof.
  intros root di. subst di. unfold GetDirInfo. fold root.
  rewrite visit_added by (split; simpl; unfold in_int64; lia).
  rewrite below_count_entry_count.
  unfold added, DirInfo_init; cbn [files empty_dirs size_bytes inode_count].
  rewrite !app_nil_l, !Z.add_0_l, sum_sizes_node_files.
  split; [done|]. split.
  { intros q size atime. split.
    - intros Hat. by apply (node_files_complete _ _ _ _ Hat).
    - intros Hin. by apply node_files_sound in Hin. }
  split.
  { intros Hwf q size atime Hat.
    apply (proj1 (NoDup_count_occ' string_dec _)).
    - by apply node_files_names_NoDup.
    - apply in_map_iff. eexists.
      split; [|by apply (node_files_complete _ _ _ _ Hat)]. done. }
  split; [done|]. split.
  { intros Hfits. by rewrite int64_wrap_id. }
  split; [done|]. split; [by apply int64_wrap_id|].
  split; [done|]. split.
  { intros q. split.
    - intros Hat. by apply (node_empty_dirs_complete _ _ _ _ Hat).
    - apply node_empty_dirs_sound. }
  split; [|done].
  intros Hwf q Hat.
  apply (proj1 (NoDup_count_occ' string_dec _)).
  - by apply node_empty_dirs_NoDup.
  - by apply (node_empty_dirs_complete _ _ _ _ Hat).
Qed.

Lemma GetDirInfo_aggregates_witness :
  well_formed (Directory cache_listing) = true
  ∧ in_int64 (node_size (Directory cache_listing))
  ∧ size_bytes (GetDirInfo "/cache" cache_listing) = 60
  ∧ count_occ string_dec (empty_dirs (GetDirInfo "/cache" cache_listing))
      "/cache/d" = 1%nat
  ∧ count_occ string_dec
      (map fi_name (files (GetDirInfo "/cache" cache_listing)))
      "/cache/b" = 1%nat.
Proof.
  pose proof (GetDirInfo_aggregates "/cache" cache_listing)
    as (_ & _ & Hfile & _ & Hsize & _ & _ & _ & _ & Hempty & _).
  assert (in_int64 (node_size (Directory cache_listing))) as Hfits
    by (unfold in_int64; simpl; lia).
  split; [reflexivity|]. split; [exact Hfits|].
  split; [exact (proj1 (Hsize Hfits))|]. split.
  - apply Hempty; [reflexivity|].
    apply (at_below _ _ "d" (Directory [])); [simpl; auto 10|].
    exact (at_here "/cache/d" (Directory [])).
  - apply (Hfile eq_refl _ 20 2).
    apply (at_below _ _ "b" (Regular 20 2)); [simpl; auto 10|].
    exact (at_here "/cache/b" (Regular 20 2)).
Defined.

Lemma WriteFileAtomic_old_or_new_witness :
  (WriteFileAtomic Mem.fs "f" xy tt one_file).1 = true
  ∧ ReadFile Mem.fs "f" kUnlimitedSize tt
      (WriteFileAtomic Mem.fs "f" xy tt one_file).2
    = (Some xy, (WriteFileAtomic Mem.fs "f" xy tt one_file).2).
Proof.
  split; [reflexivity|].
  apply (proj1 (proj2 (WriteFileAtomic_old_or_new tt one_file "f" xy))).
  reflexivity.
Defined.

(** The plain WriteFile gives no such guarantee: writing "xy" over
    "abc", the store goes through a content in which the file holds "x"
    alone. *)
Example WriteFile_shows_partial_content :
  ∃ e, In e (Mem.history (WriteFile Mem.fs "f" xy tt one_file).2)
       ∧ Mem.content_of e "f" = Some [Byte.x78].
Proof.
  exists (nth 1 (Mem.history (WriteFile Mem.fs "f" xy tt one_file).2) ∅).
  split; [right; left; reflexivity|reflexivity].
Qed.

(** * Further properties of the header's code *)

(** ** BoolOrError: the three predicates say everything *)

(** X1. The predicates tell the values apart: two BoolOrError values
    that answer is_true and is_error alike are the same value; a value
    that is no error is the one built from its is_true, a value that is
    an error is the default-constructed one, and is_false holds exactly
    when the other two do not. *)
Theorem BoolOrError_decided_by_predicates :
  (∀ x y, is_true x = is_true y → is_error x = is_error y → x = y)
  ∧ (∀ x, is_error x = false → x = of_bool (is_true x))
  ∧ (∀ x, is_error x = true → x = default)
  ∧ (∀ x, is_false x = negb (is_true x || is_error x)).
Proof.
  split; [|split; [|split]].
  - by intros [[]] [[]].
  - by intros [[]].
  - by intros [[]].
  - by intros [[]].
Qed.

Lemma BoolOrError_decided_by_predicates_witness :
  of_bool true = set true default
  ∧ set false (of_bool true) = of_bool (is_true (set false (of_bool true))).
Proof.
  split.
  - apply (proj1 BoolOrError_decided_by_predicates); reflexivity.
  - apply (proj1 (proj2 BoolOrError_decided_by_predicates)). reflexivity.
Defined.

(** ** BoolOrError: the last mutation decides *)

Lemma mutate_forgets (x y : BoolOrError) (m : mutation) :
  mutate x m = mutate y m.
Proof. by destruct m. Qed.

(** X2. After any run of set and set_error calls that is not empty, the
    object is in the state its last call asks for, whatever it was before
    and whatever the earlier calls were: a set(b) leaves true or false
    even on an object in the error state, a set_error leaves the error
    state. *)
Theorem BoolOrError_last_mutation_decides (ms : list mutation)
    (m : mutation) (x : BoolOrError) :
  mutate_all (ms ++ [m]) x
  = match m with
    | CallSetError => default
    | CallSet t_or_f => of_bool t_or_f
    end.
Proof.
  unfold mutate_all. rewrite fold_left_app. simpl. by destruct m.
Qed.

(** ** BoolOrError: copies and assignments *)

Lemma copy_is_same (s : BoolOrError) : mk (choice_ s) = s.
Proof. by destruct s. Qed.

Lemma assign_lookup (heap : objects) (this src : address)
    (s : BoolOrError) :
  heap !! src = Some s →
  (assign this src heap).1 = this
  ∧ (assign this src heap).2 !! this = Some s
  ∧ (assign this src heap).2 !! src = Some s
  ∧ (∀ other, other ≠ this →
              (assign this src heap).2 !! other = heap !! other).
Proof.
  intros Hsrc. unfold assign; simpl. split; [done|].
  destruct (decide (src ≠ this)) as [Hne|Heq].
  - rewrite Hsrc, copy_is_same.
    rewrite lookup_insert_eq, lookup_insert_ne by done.
    repeat split; [done|]. intros other Hother.
    by rewrite lookup_insert_ne.
  - apply dec_stable in Heq. subst this. by repeat split.
Qed.

(** X3. An assignment [a = b] leaves [a] in the state [b] is in, [b] as
    it was and every other object untouched, and yields [a]; assigning
    an object to itself changes nothing; in a chain [a = b = c] all
    three end in the state of [c]; and a copy-constructed object is in
    the state of its source, which stays as it was. *)
Theorem BoolOrError_assign_copies (heap : objects) (src : address)
    (s : BoolOrError) :
  heap !! src = Some s →
  (∀ this,
     (assign this src heap).1 = this
     ∧ (assign this src heap).2 !! this = Some s
     ∧ (assign this src heap).2 !! src = Some s
     ∧ (∀ other, other ≠ this →
                 (assign this src heap).2 !! other = heap !! other))
  ∧ (assign src src heap).2 = heap
  ∧ (∀ a b,
       let inner := assign b src heap in
       let outer := assign a inner.1 inner.2 in
       outer.2 !! a = Some s ∧ outer.2 !! b = Some s
       ∧ outer.2 !! src = Some s)
  ∧ (∀ this, heap !! this = None →
       copy_construct this src heap !! this = Some s
       ∧ copy_construct this src heap !! src = Some s
       ∧ ∀ other, other ≠ this →
                  copy_construct this src heap !! other = heap !! other).
Proof.
  intros Hsrc. split; [|split; [|split]].
  - intros this. by apply assign_lookup.
  - unfold assign; simpl. destruct (decide (src ≠ src)); [done|done].
  - intros a b inner outer.
    destruct (assign_lookup heap b src s Hsrc) as (Hb1 & Hb2 & Hb3 & Hb4).
    fold inner in Hb1, Hb2, Hb3, Hb4.
    assert (inner.2 !! inner.1 = Some s) as Hinner by by rewrite Hb1.
    destruct (assign_lookup inner.2 a inner.1 s Hinner)
      as (_ & Ha2 & Ha3 & Ha4).
    fold outer in Ha2, Ha3, Ha4. rewrite Hb1 in Ha3.
    split; [done|]. split; [done|].
    destruct (decide (src = a)) as [->|Hne]; [done|].
    by rewrite Ha4.
  - intros this Hfresh. unfold copy_construct, copy.
    rewrite Hsrc, copy_is_same.
    assert (src ≠ this) as Hne by (intros ->; congruence).
    rewrite lookup_insert_eq, lookup_insert_ne by done.
    split; [done|]. split; [done|].
    intros other Hother. by rewrite lookup_insert_ne.
Qed.

Lemma BoolOrError_assign_copies_witness :
  (assign 2 1 two_objects).2 !! 2%nat = Some (of_bool true)
  ∧ (assign 1 1 two_objects).2 = two_objects.
Proof.
  pose proof (BoolOrError_assign_copies two_objects 1 (of_bool true) eq_refl)
    as (Hassign & Hself & _).
  split; [apply Hassign|exact Hself].
Defined.

(** ** The default lock methods together *)

Section DefaultLocks.

Context {S MessageHandler : Type}.
Variable fs : FileSystem S MessageHandler.
Variable handler : MessageHandler.

Lemma bump_all_noop (lock_names : list string) (st : S) :
  bump_all fs lock_names handler st = (true, st).
Proof.
  induction lock_names as [|n rest IH]; [done|].
  simpl. unfold bind, BumpLockTimeout, ret. by rewrite IH.
Qed.

(** X5. With the default implementations, bumping any locks any number
    of times returns true each time and is of no consequence: a
    TryLockWithTimeout that follows, whatever its timeout and timer,
    returns what a TryLock on the state before the bumps returns, and
    leaves the state that TryLock leaves. *)
Theorem default_bumps_change_nothing (lock_names : list string)
    (lock_name : string) (timeout_millis : Z) (timer : Timer) (st : S) :
  bump_all fs lock_names handler st = (true, st)
  ∧ (let* _ := bump_all fs lock_names handler in
     TryLockWithTimeout fs lock_name timeout_millis timer handler) st
    = TryLock fs lock_name handler st.
Proof.
  split; [apply bump_all_noop|].
  unfold bind. by rewrite bump_all_noop.
Qed.

End DefaultLocks.

(** ** Renaming on the reference backend *)






(** Where the total does not fit, the counter wraps: two files of 2^62
    bytes leave size_bytes at -2^63. *)
Example GetDirInfo_size_wraps :
  size_bytes (GetDirInfo "/cache" [("a"%string, Regular (2 ^ 62) 0);
                                   ("b"%string, Regular (2 ^ 62) 0)])
  = - 2 ^ 63.
Proof. reflexivity. Qed.
